(** * CrisisMesh mesh monitor: a shallow embedding of [backend/mesh_monitor.py]

    The development follows the Python module function by function:
    - the string helpers and number parsers of the Python runtime that the
      module calls ([str.strip], [str.split], [int], [float]);
    - [parse_batman_originators], the telemetry reader;
    - [estimate_packet_loss], [estimate_signal_strength], [get_battery_pct],
      the feature extractors, on IEEE binary64 numbers;
    - [log_metrics], the date-partitioned CSV log, over a finite map of files;
    - [maybe_predict_and_act] and [main], over an explicit process state
      threaded through a state-and-exception monad.

    Conventions.  Text is ASCII: a Python [str] is a [string] whose
    characters have code points below 128.  Python integers are [Z].
    Python floats, the readings of [time.time()] among them, are the
    primitive binary64 numbers of [PrimFloat].  Whatever the process reads
    from outside (the originators file, the clocks, the environment variable,
    faults of the log directory and of its files) is collected in a [World],
    one per iteration of the main loop. *)

From Stdlib Require Import ZArith Ascii String List Floats.
From stdpp Require Import base option list gmap strings.
Import ListNotations.

#[local] Set Warnings "-inexact-float".
#[local] Set Warnings "-register-all".

Local Open Scope Z_scope.
Local Open Scope string_scope.

(** ** Exceptions *)

(** The exceptions the module can meet; all of them derive from Python's
    [Exception]. *)
Inductive exn : Type :=
| FileNotFoundError (path : string)
| OSError (what : string)
| StopIteration
| IndexError
| ValueError
| ModelError (what : string).

(** ** Python strings *)

Module PyStr.

Definition code (c : ascii) : nat := nat_of_ascii c.

(** [str.isspace] on ASCII: TAB, LF, VT, FF, CR, the four separators
    FS, GS, RS, US, and the space. *)
Definition is_space (c : ascii) : bool :=
  let n := code c in
  (((9 <=? n) && (n <=? 13)) || ((28 <=? n) && (n <=? 32)))%nat.

(** The whitespace [int] and [float] strip from the ends of a text: TAB,
    LF, VT, FF, CR and the space, without the four separators. *)
Definition is_c_space (c : ascii) : bool :=
  let n := code c in
  (((9 <=? n) && (n <=? 13)) || (n =? 32))%nat.

Definition is_digit (c : ascii) : bool :=
  let n := code c in ((48 <=? n) && (n <=? 57))%nat.

Definition digit_val (c : ascii) : Z := Z.of_nat (code c) - 48.

Definition is_char (a c : ascii) : bool := Ascii.eqb a c.

Fixpoint lstrip (p : ascii -> bool) (s : string) : string :=
  match s with
  | EmptyString => EmptyString
  | String c s' => if p c then lstrip p s' else s
  end.

Fixpoint rstrip (p : ascii -> bool) (s : string) : string :=
  match s with
  | EmptyString => EmptyString
  | String c s' =>
      match rstrip p s' with
      | EmptyString => if p c then EmptyString else String c EmptyString
      | r => String c r
      end
  end.

(** [s.strip()] is [strip is_space s]; [s.strip("(")] is
    [strip (is_char "(") s]. *)
Definition strip (p : ascii -> bool) (s : string) : string :=
  rstrip p (lstrip p s).

(** [s.split(sep)] for a one-character separator: the fields between
    separators, empty ones included; never the empty list. *)
Fixpoint fields (sep : ascii -> bool) (s : string) : list string :=
  match s with
  | EmptyString => [EmptyString]
  | String c s' =>
      if sep c then EmptyString :: fields sep s'
      else match fields sep s' with
           | f :: fs => String c f :: fs
           | [] => [String c EmptyString]
           end
  end.

Definition nonempty (s : string) : bool :=
  match s with EmptyString => false | _ => true end.

(** [s.split()]: the maximal runs of non-whitespace characters. *)
Definition split (s : string) : list string :=
  List.filter nonempty (fields is_space s).

Definition split_on (sep : ascii) (s : string) : list string :=
  fields (is_char sep) s.

Definition startswith (pre s : string) : bool := String.prefix pre s.

Definition lower (c : ascii) : ascii :=
  let n := code c in
  if ((65 <=? n) && (n <=? 90))%nat then ascii_of_nat (n + 32) else c.

Fixpoint lowercase (s : string) : string :=
  match s with
  | EmptyString => EmptyString
  | String c s' => String (lower c) (lowercase s')
  end.

End PyStr.

(** ** Python number parsers *)

Module PyNum.
Import PyStr.

(** Digits with single underscores between them, as [int] accepts them:
    [seen] tells that the previous character was a digit. *)
Fixpoint digits_value (acc : Z) (seen : bool) (s : string) : option Z :=
  match s with
  | EmptyString => if seen then Some acc else None
  | String c s' =>
      if is_digit c then digits_value (10 * acc + digit_val c) true s'
      else if is_char "_" c then
             if seen then digits_value acc false s' else None
           else None
  end.

(** The interpreter's limit on the digits of a decimal integer text
    ([sys.int_max_str_digits]). *)
Definition int_max_str_digits : nat := 4300.

Fixpoint digit_count (s : string) : nat :=
  match s with
  | EmptyString => 0
  | String c s' => ((if is_digit c then 1 else 0) + digit_count s')%nat
  end.

(** [int(s)] in base ten: surrounding whitespace, an optional sign, digits,
    no more of them than the limit. *)
Definition int (s : string) : exn + Z :=
  let t := strip is_c_space s in
  let r := match t with
           | String "+" d => digits_value 0 false d
           | String "-" d => Z.opp <$> digits_value 0 false d
           | _ => digits_value 0 false t
           end in
  match r with
  | Some z =>
      if (digit_count t <=? int_max_str_digits)%nat then inr z
      else inl ValueError
  | None => inl ValueError
  end.

(** [float(n)] for an integer, rounded to nearest even. *)
Definition float_of_int (z : Z) : float :=
  SF2Prim (binary_normalize prec emax z 0 false).

(** The binary64 number nearest to [(-1)^neg * m * 10^e]. *)
Definition float_of_decimal (neg : bool) (m e : Z) : float :=
  match m with
  | Zpos p =>
      if (0 <=? e)%Z
      then SF2Prim (binary_normalize prec emax
                      ((if neg then Z.opp else id) (m * 10 ^ e)) 0 false)
      else SF2Prim (SFdiv prec emax
                      (S754_finite neg p 0)
                      (S754_finite false (Z.to_pos (10 ^ (- e))) 0))
  | _ => if neg then neg_zero else zero
  end.

(** Underscores of a float literal: each one after a digit and before a
    digit; they are removed before the number is read. *)
Fixpoint drop_underscores (prev : option ascii) (s : string) : option string :=
  match s with
  | EmptyString =>
      match prev with
      | Some c => if is_char "_" c then None else Some EmptyString
      | None => Some EmptyString
      end
  | String c s' =>
      if is_char "_" c then
        match prev with
        | Some d => if is_digit d then drop_underscores (Some c) s' else None
        | None => None
        end
      else
        match prev with
        | Some d =>
            if is_char "_" d && negb (is_digit c) then None
            else String c <$> drop_underscores (Some c) s'
        | None => String c <$> drop_underscores (Some c) s'
        end
  end.

(** A run of digits: its value added to [acc], its length, the rest. *)
Fixpoint take_digits (acc : Z) (n : nat) (s : string) : Z * nat * string :=
  match s with
  | String c s' =>
      if is_digit c then take_digits (10 * acc + digit_val c) (S n) s'
      else (acc, n, s)
  | EmptyString => (acc, n, s)
  end.

Definition take_sign (s : string) : bool * string :=
  match s with
  | String "+" r => (false, r)
  | String "-" r => (true, r)
  | _ => (false, s)
  end.

(** [digits [. digits] [e [sign] digits]] with a digit in the mantissa:
    the mantissa as an integer and the decimal exponent. *)
Definition decimal (s : string) : option (Z * Z) :=
  let '(ip, ni, r1) := take_digits 0 0 s in
  let '(m, nf, r2) :=
    match r1 with
    | String "." r => take_digits ip 0 r
    | _ => (ip, 0%nat, r1)
    end in
  if (ni + nf =? 0)%nat then None
  else match r2 with
       | EmptyString => Some (m, - Z.of_nat nf)
       | String c r3 =>
           if is_char "e" (lower c) then
             let '(eneg, r4) := take_sign r3 in
             let '(ev, ne, r5) := take_digits 0 0 r4 in
             if (ne =? 0)%nat then None
             else if nonempty r5 then None
                  else Some (m, (if eneg then - ev else ev) - Z.of_nat nf)
           else None
       end.

(** [float(s)] for a string: whitespace, sign, then [inf], [infinity],
    [nan] in any case, or a decimal number, correctly rounded. *)
Definition float (s : string) : exn + float :=
  match drop_underscores None (strip is_c_space s) with
  | None => inl ValueError
  | Some t =>
      let '(neg, body) := take_sign t in
      let word := lowercase body in
      if (word =? "inf") || (word =? "infinity")
      then inr (if neg then neg_infinity else infinity)
      else if word =? "nan" then inr nan
      else match decimal body with
           | Some (m, e) => inr (float_of_decimal neg m e)
           | None => inl ValueError
           end
  end.

End PyNum.

(** ** Feature extraction *)

(** [estimate_packet_loss]: the link quality clamped to [0, 255] and mapped
    to a loss in [0, 0.5]. *)
Definition estimate_packet_loss (tq : Z) : float :=
  let tq_clamped := Z.max 0 (Z.min 255 tq) in
  (0.5 * (1 - PyNum.float_of_int tq_clamped / 255))%float.

(** [estimate_signal_strength]: the clamped link quality over 255. *)
Definition estimate_signal_strength (tq : Z) : float :=
  let tq_clamped := Z.max 0 (Z.min 255 tq) in
  (PyNum.float_of_int tq_clamped / 255)%float.

(** [get_battery_pct]: the value of CRISIS_BATTERY_PCT when it is set,
    non-empty and [float] reads it; 80.0 otherwise. *)
Definition get_battery_pct (env_val : option string) : float :=
  match env_val with
  | Some v =>
      if PyStr.nonempty v then
        match PyNum.float v with
        | inr x => x
        | inl _ => 80%float
        end
      else 80%float
  | None => 80%float
  end.

(** ** Configuration ([config.py]) *)

Definition BAT_ORIGINATORS_PATH : string :=
  "/sys/kernel/debug/batman_adv/bat0/originators".
Definition PREDICTION_THRESHOLD : float := 0.7%float.
Definition POLL_INTERVAL_SEC : Z := 2.
Definition PREDICT_INTERVAL_SEC : Z := 5.

(** ** Exceptions as results *)

#[global] Instance exn_ret : MRet (sum exn) := fun _ x => inr x.
#[global] Instance exn_bind : MBind (sum exn) :=
  fun _ _ f m => match m with inl e => inl e | inr a => f a end.

(** [l[i]], raising [IndexError] out of range. *)
Definition item {A} (l : list A) (i : nat) : exn + A :=
  match l !! i with Some x => inr x | None => inl IndexError end.

(** [next(p for p in l if test(p))], raising [StopIteration] when no element
    passes. *)
Definition next_such {A} (test : A -> bool) (l : list A) : exn + A :=
  match List.find test l with Some x => inr x | None => inl StopIteration end.

(** ** The telemetry reader *)

(** One entry of the list [parse_batman_originators] returns. *)
Record Neighbor : Type := {
  neighbor : string;
  last_seen_ms : Z;
  tq : Z;
  hop_count : Z
}.

(** What the originators path holds when it is read: nothing
    ([os.path.exists] is false), something [open] or [readlines] fails on, or
    the lines of a text file. *)
Inductive Source : Type :=
| Missing
| Unreadable (what : string)
| Readable (lines : list string).

(** The body of the [try] of the line loop, on the tokens of a line. *)
Definition parse_fields (parts : list string) : exn + Neighbor :=
  neighbor_mac ← item parts 0;
  tq_token ← next_such (PyStr.startswith "TQ:") parts;
  tq_field ← item (PyStr.split_on ":" tq_token) 1;
  tq_val ← PyNum.int tq_field;
  last_seen_token ← item (List.filter (PyStr.startswith "(") parts) 0;
  last_seen ← PyNum.int (PyStr.strip (PyStr.is_char "(") last_seen_token);
  mret {| neighbor := neighbor_mac;
          last_seen_ms := last_seen;
          tq := tq_val;
          hop_count := 1 |}.

(** One iteration of the line loop: [None] for [continue], [Some n] when the
    iteration reaches [neighbors.append(n)]. *)
Definition parse_line (line : string) : option Neighbor :=
  let line := PyStr.strip PyStr.is_space line in
  if negb (PyStr.nonempty line) || PyStr.startswith "Originator" line
  then None
  else match parse_fields (PyStr.split line) with
       | inl _ => None
       | inr n => Some n
       end.

(** The line loop, appending to [neighbors]. *)
Definition parse_lines (lines : list string) : list Neighbor :=
  fold_left
    (fun neighbors line =>
       match parse_line line with
       | Some n => (neighbors ++ [n])%list
       | None => neighbors
       end)
    lines [].

Definition parse_batman_originators (src : Source) : exn + list Neighbor :=
  match src with
  | Missing => inl (FileNotFoundError BAT_ORIGINATORS_PATH)
  | Unreadable what => inl (OSError what)
  | Readable lines => inr (parse_lines lines)
  end.

(** The source cannot be read: the path does not exist or is unreadable. *)
Definition unavailable (src : Source) : Prop :=
  src = Missing \/ exists what, src = Unreadable what.

(** The shape of a line the reader keeps, stated on its tokens: the line is
    not blank and not the header; its first token is the identifier; the
    first token starting with [TQ:] carries an integer between its first and
    second colon; the first token starting with an opening parenthesis is an
    integer once the parentheses at its ends are removed. *)
Inductive well_formed (line : string) : Neighbor -> Prop :=
| well_formed_intro mac rest tq_token tq_field tq_val ls_token ls_val :
    let text := PyStr.strip PyStr.is_space line in
    text <> "" ->
    PyStr.startswith "Originator" text = false ->
    PyStr.split text = mac :: rest ->
    List.find (PyStr.startswith "TQ:") (mac :: rest) = Some tq_token ->
    PyStr.split_on ":" tq_token !! 1%nat = Some tq_field ->
    PyNum.int tq_field = inr tq_val ->
    List.find (PyStr.startswith "(") (mac :: rest) = Some ls_token ->
    PyNum.int (PyStr.strip (PyStr.is_char "(") ls_token) = inr ls_val ->
    well_formed line {| neighbor := mac; last_seen_ms := ls_val;
                        tq := tq_val; hop_count := 1 |}.

(** Texts of digits. *)
Fixpoint all_chars (p : ascii -> bool) (s : string) : bool :=
  match s with
  | EmptyString => true
  | String c s' => p c && all_chars p s'
  end.

Definition digit_text (s : string) : bool :=
  PyStr.nonempty s && all_chars PyStr.is_digit s.

(** A text of digits [int] reads: no longer than the interpreter allows. *)
Definition is_digits (s : string) : bool :=
  digit_text s && (String.length s <=? PyNum.int_max_str_digits)%nat.

(** The number a string of digits writes, after the digits of [acc]. *)
Fixpoint number_of (acc : Z) (s : string) : Z :=
  match s with
  | EmptyString => acc
  | String c s' => number_of (10 * acc + PyStr.digit_val c) s'
  end.

(** The line format the reader is written for: an identifier first, a
    link-quality token [TQ:<digits>], a last-seen token [(<digits>], these
    two being the first tokens of the line to start with [TQ:] and with an
    opening parenthesis, and the record that such a line writes. *)
Definition documented (line : string) (n : Neighbor) : Prop :=
  exists rest tq_digits ls_digits,
    let text := PyStr.strip PyStr.is_space line in
    let parts := neighbor n :: rest in
    PyStr.startswith "Originator" text = false
    /\ PyStr.split text = parts
    /\ List.find (PyStr.startswith "TQ:") parts = Some ("TQ:" ++ tq_digits)
    /\ is_digits tq_digits = true
    /\ tq n = number_of 0 tq_digits
    /\ List.find (PyStr.startswith "(") parts = Some ("(" ++ ls_digits)
    /\ is_digits ls_digits = true
    /\ last_seen_ms n = number_of 0 ls_digits
    /\ hop_count n = 1.

(** The line format as the specification words it: a data line holds an
    identifier as its first token, a token [TQ:<int 0-255>] and a token
    [(<int>]; its other tokens are ignored. *)
Fixpoint after_prefix (pre s : string) : option string :=
  match pre, s with
  | EmptyString, _ => Some s
  | String a pre', String c s' =>
      if Ascii.eqb a c then after_prefix pre' s' else None
  | String _ _, EmptyString => None
  end.

Definition spec_tq_token (t : string) : bool :=
  match after_prefix "TQ:" t with
  | Some d => digit_text d && (number_of 0 d <=? 255)%Z
  | None => false
  end.

Definition spec_last_seen_token (t : string) : bool :=
  match after_prefix "(" t with
  | Some d => digit_text d
  | None => false
  end.

Definition spec_format (line : string) : bool :=
  let text := PyStr.strip PyStr.is_space line in
  let parts := PyStr.split text in
  PyStr.nonempty text
  && negb (PyStr.startswith "Originator" text)
  && existsb spec_tq_token parts
  && existsb spec_last_seen_token parts.

(** The first token of a line, the identifier of its record. *)
Definition line_id (line : string) : option string :=
  head (PyStr.split (PyStr.strip PyStr.is_space line)).

(** The lines of a file the reader keeps. *)
Definition kept (lines : list string) : list string :=
  List.filter (fun l => bool_decide (is_Some (parse_line l))) lines.

(** ** The process and its surroundings *)

(** A UTC calendar date (year, month, day) and a [datetime.utcnow()]
    reading: the date and the microseconds since midnight. *)
Definition date : Type := (Z * Z * Z)%type.

Record datetime : Type := { dt_date : date; dt_micros : Z }.

(** A field handed to [csv.writer.writerow]: a string, the ISO text of a
    [datetime], an integer or a float. *)
Inductive cell : Type :=
| CText (s : string)
| CStamp (t : datetime)
| CInt (z : Z)
| CFloat (x : float).

Definition row : Type := list cell.

(** The row the classifier is given: [np.array([[...]])]. *)
Record FeatureVector : Type := {
  signal_strength : float;
  packet_loss : float;
  fv_hop_count : Z;
  battery_pct : float
}.

(** The unpickled model, through [float(MODEL.predict_proba(X)[0, 1])];
    it is foreign code and may raise. *)
Definition Model : Type := FeatureVector -> exn + float.

(** What the process writes to its standard output, line by line, and the
    calls of [time.sleep]. *)
Inductive Event : Type :=
| InfoStarting
| WarnModelNotFound
| InfoLoadedModel
| InfoFound (count : nat)
| Predict (who : string) (link_quality hop : Z) (prob : float)
| Action (who : string) (prob : float)
| Error (e : exn)
| Sleep (secs : Z).

(** Failures of the log: [mkdir] raises; [open] raises; or, the file once
    open, a write or the closing of the file raises when [kept] of the rows
    of this append have reached the file. *)
Inductive LogFault : Type :=
| MkdirFails (what : string)
| OpenFails (what : string)
| WriteFails (kept : nat) (what : string).

(** Everything one iteration of the main loop reads from outside. *)
Record World : Type := {
  originators : Source;
  utcnow_ts : datetime;
  utcnow_path : datetime;
  time_now : float;
  CRISIS_BATTERY_PCT : option string;
  log_fault : option LogFault
}.

(** The globals of the module, the log directory with its files (keyed by
    the date in the file name [metrics_<date>.csv]), and the output so
    far. *)
Record State : Type := {
  MODEL : option Model;
  LAST_PREDICT_TIME : float;
  log_dir : bool;
  log_files : gmap date (list row);
  stdout : list Event
}.

Definition set_MODEL (m : option Model) (st : State) : State :=
  {| MODEL := m; LAST_PREDICT_TIME := LAST_PREDICT_TIME st;
     log_dir := log_dir st; log_files := log_files st; stdout := stdout st |}.

Definition set_LAST_PREDICT_TIME (t : float) (st : State) : State :=
  {| MODEL := MODEL st; LAST_PREDICT_TIME := t;
     log_dir := log_dir st; log_files := log_files st; stdout := stdout st |}.

Definition set_log_dir (b : bool) (st : State) : State :=
  {| MODEL := MODEL st; LAST_PREDICT_TIME := LAST_PREDICT_TIME st;
     log_dir := b; log_files := log_files st; stdout := stdout st |}.

Definition set_log_files (fs : gmap date (list row)) (st : State) : State :=
  {| MODEL := MODEL st; LAST_PREDICT_TIME := LAST_PREDICT_TIME st;
     log_dir := log_dir st; log_files := fs; stdout := stdout st |}.

Definition emit (ev : Event) (st : State) : State :=
  {| MODEL := MODEL st; LAST_PREDICT_TIME := LAST_PREDICT_TIME st;
     log_dir := log_dir st; log_files := log_files st;
     stdout := (stdout st ++ [ev])%list |}.

(** ** The monad of the module: state and exceptions *)

Definition M (A : Type) : Type := State -> State * (exn + A).

#[global] Instance M_ret : MRet M := fun _ x st => (st, inr x).
#[global] Instance M_bind : MBind M :=
  fun _ _ f m st =>
    match m st with
    | (st', inl e) => (st', inl e)
    | (st', inr a) => f a st'
    end.

Definition raise {A} (e : exn) : M A := fun st => (st, inl e).
Definition gets {A} (f : State -> A) : M A := fun st => (st, inr (f st)).
Definition modify (f : State -> State) : M unit := fun st => (f st, inr tt).
Definition lift {A} (r : exn + A) : M A := fun st => (st, r).
Definition print (ev : Event) : M unit := modify (emit ev).

(** [for x in l: body(x)]. *)
Fixpoint for_each {A} (l : list A) (body : A -> M unit) : M unit :=
  match l with
  | [] => mret tt
  | x :: l' => body x ;; for_each l' body
  end.

(** ** The metric log *)

Definition header_row : row :=
  [CText "timestamp"; CText "neighbor"; CText "signal_strength";
   CText "packet_loss"; CText "hop_count"; CText "battery_pct";
   CText "will_fail"].

(** [LOG_DIR.mkdir(exist_ok=True, parents=True)]. *)
Definition mkdir (w : World) : M unit :=
  match log_fault w with
  | Some (MkdirFails what) => raise (OSError what)
  | _ => modify (set_log_dir true)
  end.

(** [open(log_path, "a", newline="")]: the file is created empty when it
    does not exist, and left as it is otherwise. *)
Definition open_append (w : World) (log_path : date) : M unit :=
  match log_fault w with
  | Some (OpenFails what) => raise (OSError what)
  | _ =>
      modify (fun st =>
                match log_files st !! log_path with
                | Some _ => st
                | None => set_log_files (<[log_path := []]> (log_files st)) st
                end)
  end.

(** [writer.writerow(r)] on the file opened for appending, [i] rows of this
    append being written already. *)
Definition writerow (w : World) (log_path : date) (i : nat) (r : row)
  : M unit :=
  match log_fault w with
  | Some (WriteFails kept what) =>
      if (i =? kept)%nat then raise (OSError what)
      else modify (fun st =>
                     set_log_files
                       (alter (fun rows => rows ++ [r])%list log_path
                          (log_files st)) st)
  | _ =>
      modify (fun st =>
                set_log_files (alter (fun rows => rows ++ [r])%list log_path
                                 (log_files st)) st)
  end.

(** The end of the [with] block: the file is closed. *)
Definition close (w : World) : M unit :=
  match log_fault w with
  | Some (WriteFails _ what) => raise (OSError what)
  | _ => mret tt
  end.

(** [for x in l: body(x)], the body being told how many rows are written
    before its turn. *)
Fixpoint for_each_from {A} (i : nat) (l : list A) (body : nat -> A -> M unit)
  : M unit :=
  match l with
  | [] => mret tt
  | x :: l' => body i x ;; for_each_from (S i) l' body
  end.

(** [log_metrics].  The index handed to [writerow] counts the rows this
    append has written, so that the fault of the [World] strikes at its place;
    the rows do not depend on it. *)
Definition log_metrics (w : World) (neighbors : list Neighbor) : M unit :=
  mkdir w ;;
  let ts := utcnow_ts w in
  let log_path := dt_date (utcnow_path w) in
  file_exists ← gets (fun st => bool_decide (is_Some (log_files st !! log_path)));
  open_append w log_path ;;
  (if negb file_exists then writerow w log_path 0%nat header_row
   else mret tt) ;;
  for_each_from (if (file_exists : bool) then 0 else 1)%nat neighbors
    (fun i n =>
       let signal_strength := estimate_signal_strength (tq n) in
       let packet_loss := estimate_packet_loss (tq n) in
       let hop_count := hop_count n in
       let battery_pct := get_battery_pct (CRISIS_BATTERY_PCT w) in
       let will_fail := 0 in
       writerow w log_path i
         [CStamp ts; CText (neighbor n); CFloat signal_strength;
          CFloat packet_loss; CInt hop_count; CFloat battery_pct;
          CInt will_fail]) ;;
  close w.

(** ** Prediction *)

Definition maybe_predict_and_act (w : World) (neighbors : list Neighbor) : M unit :=
  model ← gets MODEL;
  match model with
  | None => mret tt
  | Some MODEL =>
      let now := time_now w in
      last ← gets LAST_PREDICT_TIME;
      if PrimFloat.ltb (PrimFloat.sub now last)
                       (PyNum.float_of_int PREDICT_INTERVAL_SEC)
      then mret tt
      else
        modify (set_LAST_PREDICT_TIME now) ;;
        for_each neighbors
          (fun n =>
             let signal_strength := estimate_signal_strength (tq n) in
             let packet_loss := estimate_packet_loss (tq n) in
             let hop_count := hop_count n in
             let battery_pct := get_battery_pct (CRISIS_BATTERY_PCT w) in
             let X := {| signal_strength := signal_strength;
                         packet_loss := packet_loss;
                         fv_hop_count := hop_count;
                         battery_pct := battery_pct |} in
             prob ← lift (MODEL X);
             print (Predict (neighbor n) (tq n) hop_count prob) ;;
             if (PREDICTION_THRESHOLD <=? prob)%float
             then print (Action (neighbor n) prob)
             else mret tt)
  end.

(** ** The main loop *)

(** What [MODEL_PATH] holds at start-up: nothing, or a pickle whose loading
    raises or yields a model. *)
Definition load_model (artifact : option (exn + Model)) : M unit :=
  match artifact with
  | None => print WarnModelNotFound ;; modify (set_MODEL None)
  | Some pickled =>
      model ← lift pickled;
      modify (set_MODEL (Some model)) ;;
      print InfoLoadedModel
  end.

(** The body of the [try] of the loop. *)
Definition tick (w : World) : M unit :=
  neighbors ← lift (parse_batman_originators (originators w));
  print (InfoFound (length neighbors)) ;;
  log_metrics w neighbors ;;
  maybe_predict_and_act w neighbors.

(** One iteration of [while True]: the [try], its handler, the sleep. *)
Definition iteration (w : World) (st : State) : State :=
  let st1 :=
    match tick w st with
    | (st', inr _) => st'
    | (st', inl e) => emit (Error e) st'
    end in
  emit (Sleep POLL_INTERVAL_SEC) st1.

(** The loop over the worlds of its first iterations. *)
Fixpoint main_loop (ws : list World) (st : State) : State :=
  match ws with
  | [] => st
  | w :: ws' => main_loop ws' (iteration w st)
  end.

(** [main]: an exception of [load_model] ends the process before the loop
    starts; nothing ends the loop. *)
Definition main (artifact : option (exn + Model)) (ws : list World) : M unit :=
  print InfoStarting ;;
  load_model artifact ;;
  modify (main_loop ws).

(** The process at start-up, over the log directory it finds. *)
Definition initial (dir : bool) (files : gmap date (list row)) : State :=
  {| MODEL := None; LAST_PREDICT_TIME := 0%float;
     log_dir := dir; log_files := files; stdout := [] |}.

(** ** The read API ([api.py]) *)

(** What [jsonify] is given: strings, integers, floats, clock readings, lists
    and dicts with their keys in the order of the source. *)
Inductive json : Type :=
| JStr (s : string)
| JInt (z : Z)
| JFloat (x : float)
| JTime (t : float)
| JList (items : list json)
| JDict (entries : list (string * json)).

(** What a view returns: a body and a status code, 200 unless the view gives
    another. *)
Record Response : Type := { status : Z; body : json }.

Definition jsonify (payload : json) : Response :=
  {| status := 200; body := payload |}.

Definition with_status (r : Response) (code : Z) : Response :=
  {| status := code; body := body r |}.

(** [str(e)]: the message the exception was raised with.  The views meet
    the exceptions of the read only, [FileNotFoundError] and [OSError]; the
    messages of the others stand for texts the interpreter words. *)
Definition exn_str (e : exn) : string :=
  match e with
  | FileNotFoundError path => path ++ " does not exist"
  | OSError what => what
  | StopIteration => ""
  | IndexError => "list index out of range"
  | ValueError => "invalid literal"
  | ModelError what => what
  end.

(** [topology]: the view of [GET /api/v1/topology]. *)
Definition topology (w : World) : Response :=
  match parse_batman_originators (originators w) with
  | inl e => with_status (jsonify (JDict [("error", JStr (exn_str e))])) 500
  | inr neighbors =>
      let nodes :=
        (fun n => JDict [("neighbor", JStr (neighbor n));
                         ("last_seen_ms", JInt (last_seen_ms n));
                         ("tq", JInt (tq n));
                         ("hop_count", JInt (hop_count n))]) <$> neighbors in
      jsonify (JDict [("timestamp", JTime (time_now w));
                      ("neighbors", JList nodes)])
  end.

(** A loop that appends one result for each element, left by the first
    exception. *)
Fixpoint collect {A B} (l : list A) (f : A -> exn + B) : exn + list B :=
  match l with
  | [] => inr []
  | x :: l' =>
      y ← f x;
      ys ← collect l' f;
      mret (y :: ys)
  end.

(** [predictions]: the view of [GET /api/v1/predictions], over the value of
    the module's name [MODEL]; an exception of the model is not caught by the
    view. *)
Definition predictions (MODEL : option Model) (w : World) : exn + Response :=
  match MODEL with
  | None =>
      inr (with_status
             (jsonify (JDict [("error", JStr "Model not loaded on this node")]))
             500)
  | Some MODEL =>
      match parse_batman_originators (originators w) with
      | inl e =>
          inr (with_status (jsonify (JDict [("error", JStr (exn_str e))])) 500)
      | inr neighbors =>
          preds ← collect neighbors
            (fun n =>
               let signal_strength := estimate_signal_strength (tq n) in
               let packet_loss := estimate_packet_loss (tq n) in
               let hop_count := hop_count n in
               let battery_pct := get_battery_pct (CRISIS_BATTERY_PCT w) in
               let X := {| signal_strength := signal_strength;
                           packet_loss := packet_loss;
                           fv_hop_count := hop_count;
                           battery_pct := battery_pct |} in
               prob ← MODEL X;
               mret (JDict [("neighbor", JStr (neighbor n));
                            ("failure_prob", JFloat prob);
                            ("tq", JInt (tq n));
                            ("hop_count", JInt hop_count)]));
          mret (jsonify (JDict [("timestamp", JTime (time_now w));
                                ("predictions", JList preds)]))
      end
  end.

(** The name [MODEL] of [api.py]: [from mesh_monitor import MODEL] binds it
    to the value the global has once [mesh_monitor] is imported, and nothing
    in [api.py] binds it again or calls [load_model]. *)
Definition api_MODEL : option Model := MODEL (initial false ∅).

(** ** Vocabulary of the properties *)

(** A percentage: between 0 and 100, as floats compare. *)
Definition in_percent_range (x : float) : bool :=
  ((0 <=? x) && (x <=? 100))%float.

(** The header row is recognised by its texts. *)
Definition cell_text (c : cell) : option string :=
  match c with CText s => Some s | _ => None end.

Definition is_header (r : row) : bool :=
  bool_decide (cell_text <$> r = cell_text <$> header_row).

Definition header_count (rows : list row) : nat :=
  length (List.filter is_header rows).

(** Every file of the log directory holds the header once. *)
Definition headers_once (files : gmap date (list row)) : Prop :=
  map_Forall (fun _ rows => header_count rows = 1%nat) files.

(** The row [log_metrics] writes for a neighbor, and the features
    [maybe_predict_and_act] hands to the model for it. *)
Definition data_row (w : World) (n : Neighbor) : row :=
  [CStamp (utcnow_ts w); CText (neighbor n);
   CFloat (estimate_signal_strength (tq n));
   CFloat (estimate_packet_loss (tq n)); CInt (hop_count n);
   CFloat (get_battery_pct (CRISIS_BATTERY_PCT w)); CInt 0].

Definition features_of (w : World) (n : Neighbor) : FeatureVector :=
  {| signal_strength := estimate_signal_strength (tq n);
     packet_loss := estimate_packet_loss (tq n);
     fv_hop_count := hop_count n;
     battery_pct := get_battery_pct (CRISIS_BATTERY_PCT w) |}.

(** The lines of the output that report a score, an intended action, and the
    calls of [sleep]. *)
Definition predicted (ev : Event) : option (string * float) :=
  match ev with Predict who _ _ p => Some (who, p) | _ => None end.

Definition acted (ev : Event) : option (string * float) :=
  match ev with Action who p => Some (who, p) | _ => None end.

Definition is_sleep (ev : Event) : bool :=
  match ev with Sleep _ => true | _ => false end.

Definition sleeps (evs : list Event) : nat :=
  length (List.filter is_sleep evs).

(** The events of one scoring pass over neighbors with the given scores. *)
Definition score_events (scored : list (Neighbor * float)) : list Event :=
  flat_map
    (fun '(n, p) =>
       Predict (neighbor n) (tq n) (hop_count n) p ::
       (if (PREDICTION_THRESHOLD <=? p)%float
        then [Action (neighbor n) p] else []))
    scored.

(** The test of [maybe_predict_and_act] on the clock, on binary64 numbers:
    true when the attempt returns without scoring. *)
Definition too_soon (now last : float) : bool :=
  PrimFloat.ltb (PrimFloat.sub now last)
                (PyNum.float_of_int PREDICT_INTERVAL_SEC).

(** The difference of the readings, as computed, is at least the predict
    interval. *)
Definition interval_elapsed (now last : float) : bool :=
  PrimFloat.leb (PyNum.float_of_int PREDICT_INTERVAL_SEC)
                (PrimFloat.sub now last).

(** A reading that is no number. *)
Definition not_a_number (x : float) : bool := negb (PrimFloat.eqb x x).

(** A prediction is due: a model is loaded and the test on the clock lets the
    attempt through. *)
Definition due (w : World) (st : State) : Prop :=
  is_Some (MODEL st)
  /\ too_soon (time_now w) (LAST_PREDICT_TIME st) = false.

Definition dueb (w : World) (st : State) : bool :=
  match MODEL st with
  | Some _ => negb (too_soon (time_now w) (LAST_PREDICT_TIME st))
  | None => false
  end.

(** The clock readings at which a sequence of predict attempts scores. *)
Fixpoint scoring_times (calls : list (World * list Neighbor)) (st : State)
  : list float :=
  match calls with
  | [] => []
  | (w, ns) :: calls' =>
      let st' := fst (maybe_predict_and_act w ns st) in
      if dueb w st then time_now w :: scoring_times calls' st'
      else scoring_times calls' st'
  end.

(** Readings each of which passes the test on the clock against the one
    before, the first against [t]. *)
Fixpoint spaced_after (t : float) (ts : list float) : Prop :=
  match ts with
  | [] => True
  | t' :: ts' => too_soon t' t = false /\ spaced_after t' ts'
  end.

(** The state after the lines [evs] are written to the output. *)
Definition emit_all (evs : list Event) (st : State) : State :=
  {| MODEL := MODEL st; LAST_PREDICT_TIME := LAST_PREDICT_TIME st;
     log_dir := log_dir st; log_files := log_files st;
     stdout := (stdout st ++ evs)%list |}.

(** The body of the scoring loop of [maybe_predict_and_act]. *)
Definition score_one (model : Model) (w : World) (n : Neighbor) : M unit :=
  prob ← lift (model (features_of w n));
  print (Predict (neighbor n) (tq n) (hop_count n) prob) ;;
  if (PREDICTION_THRESHOLD <=? prob)%float
  then print (Action (neighbor n) prob)
  else mret tt.

(** Reading a response back: the value under a key of a dict, and the records
    and predictions of a body. *)
Definition dict_get (key : string) (j : json) : option json :=
  match j with
  | JDict entries => snd <$> List.find (fun kv => String.eqb key (fst kv)) entries
  | _ => None
  end.

Definition as_str (j : json) : option string :=
  match j with JStr s => Some s | _ => None end.

Definition as_int (j : json) : option Z :=
  match j with JInt z => Some z | _ => None end.

Definition as_float (j : json) : option float :=
  match j with JFloat x => Some x | _ => None end.

Definition as_time (j : json) : option float :=
  match j with JTime t => Some t | _ => None end.

Definition as_list (j : json) : option (list json) :=
  match j with JList l => Some l | _ => None end.

Definition neighbor_of_json (j : json) : option Neighbor :=
  id ← dict_get "neighbor" j ≫= as_str;
  ls ← dict_get "last_seen_ms" j ≫= as_int;
  q ← dict_get "tq" j ≫= as_int;
  hop ← dict_get "hop_count" j ≫= as_int;
  Some {| neighbor := id; last_seen_ms := ls; tq := q; hop_count := hop |}.

(** A prediction of a body: identifier, probability, link quality, hops. *)
Definition prediction_of_json (j : json) : option (string * float * Z * Z) :=
  id ← dict_get "neighbor" j ≫= as_str;
  p ← dict_get "failure_prob" j ≫= as_float;
  q ← dict_get "tq" j ≫= as_int;
  hop ← dict_get "hop_count" j ≫= as_int;
  Some (id, p, q, hop).

Definition error_of (r : Response) : option string :=
  dict_get "error" (body r) ≫= as_str.

Definition neighbors_of (r : Response) : option (list Neighbor) :=
  items ← dict_get "neighbors" (body r) ≫= as_list;
  mapM neighbor_of_json items.

Definition predictions_of (r : Response)
  : option (list (string * float * Z * Z)) :=
  items ← dict_get "predictions" (body r) ≫= as_list;
  mapM prediction_of_json items.

Definition timestamp_of (r : Response) : option float :=
  dict_get "timestamp" (body r) ≫= as_time.

(** A character no decimal integer holds: not a digit, an underscore, a sign
    or whitespace. *)
Definition foreign (c : ascii) : bool :=
  negb (PyStr.is_digit c || PyStr.is_char "_" c || PyStr.is_char "+" c
        || PyStr.is_char "-" c || PyStr.is_space c).

Fixpoint has_char (p : ascii -> bool) (s : string) : bool :=
  match s with
  | EmptyString => false
  | String c s' => p c || has_char p s'
  end.

(** A character that a text [float] reads can hold: whitespace, a digit, a
    sign, the point, the underscore, or a letter of the exponent mark, of
    [inf], of [infinity] or of [nan], in either case. *)
Definition float_letter (c : ascii) : bool :=
  has_char (Ascii.eqb (PyStr.lower c)) "aefinty".

Definition float_char (c : ascii) : bool :=
  PyStr.is_c_space c || PyStr.is_digit c
  || has_char (Ascii.eqb c) "+-._" || float_letter c.

(** A line the reader passes over before its [try]: blank, or the header. *)
Definition passed_over (line : string) : bool :=
  let text := PyStr.strip PyStr.is_space line in
  negb (PyStr.nonempty text) || PyStr.startswith "Originator" text.



(** The files of [files'] extend those of [files]: none is lost and each
    keeps its rows as a prefix. *)
Definition extends (files files' : gmap date (list row)) : Prop :=
  forall d rows, files !! d = Some rows ->
                 exists more, files' !! d = Some (rows ++ more)%list.

(** Every intended action of an output is at or above the threshold and has
    its score reported in the output. *)
Definition actions_backed (evs : list Event) : Prop :=
  forall who p,
    In (Action who p) evs ->
    (PREDICTION_THRESHOLD <=? p)%float = true
    /\ exists q hop, In (Predict who q hop p) evs.

(** The clamp of the feature extractors. *)
Definition clamp_tq (tq : Z) : Z := Z.max 0 (Z.min 255 tq).

(** [check] holds of every link quality in [0, 255], and of every pair of
    them. *)
Definition on_all_values (check : Z -> bool) : bool :=
  forallb (fun i => check (Z.of_nat i)) (seq 0 256).

Definition on_all_pairs (check : Z -> Z -> bool) : bool :=
  forallb (fun i => forallb (fun j => check (Z.of_nat i) (Z.of_nat j))
                            (seq 0 256))
          (seq 0 256).

(** ** Sample surroundings *)

Module Sample.

Definition day1 : date := (2024, 3, 9).
Definition day2 : date := (2024, 3, 10).

Definition table : list string :=
  ["Originator        last-seen  quality";
   "aa:bb:cc:dd:ee:ff   0.340s   TQ:60 (340";
   "11:22:33:44:55:66   0.120s   TQ:250 (120"].

Definition weak : Neighbor :=
  {| neighbor := "aa:bb:cc:dd:ee:ff"; last_seen_ms := 340;
     tq := 60; hop_count := 1 |}.

Definition strong : Neighbor :=
  {| neighbor := "11:22:33:44:55:66"; last_seen_ms := 120;
     tq := 250; hop_count := 1 |}.

(** A world that reads [src] on [day] at clock reading [t] and meets
    [fault]. *)
Definition world (src : Source) (day : date) (t : float)
           (fault : option LogFault) : World :=
  {| originators := src;
     utcnow_ts := {| dt_date := day; dt_micros := 43200000000 |};
     utcnow_path := {| dt_date := day; dt_micros := 43200000017 |};
     time_now := t;
     CRISIS_BATTERY_PCT := None;
     log_fault := fault |}.

(** A classifier that gives 0.85 to links of signal strength below one
    half and 0.3 to the others. *)
Definition model : Model :=
  fun X => inr (if (signal_strength X <? 0.5)%float
                then 0.85%float else 0.3%float).

(** The process with [model] loaded, before its first scoring pass, over
    an empty log directory. *)
Definition loaded : State := set_MODEL (Some model) (initial true ∅).

(** A classifier that answers like [model] for weak links and raises for
    the others. *)
Definition brittle : Model :=
  fun X => if (signal_strength X <? 0.5)%float
           then inr 0.85%float else inl (ModelError "unexpected input").

End Sample.

(** * Properties *)

(** ** Feature extraction *)

Section Complementary.

(** The identity on one clamped link quality. *)
Let complementary (c : Z) : Prop :=
  (PyNum.float_of_int c / 255
   + 2 * (0.5 * (1 - PyNum.float_of_int c / 255)))%float = 1%float.

Lemma complementary_first_256 :
  Forall (fun n => complementary (Z.of_nat n)) (seq 0 256).
Proof.
  unfold complementary.
  repeat (constructor; [vm_compute; reflexivity|]).
  constructor.
Qed.

Lemma complementary_clamped c : 0 <= c <= 255 -> complementary c.
Proof.
  intros Hc.
  assert (Hin : In (Z.to_nat c) (seq 0 256)) by (apply in_seq; lia).
  pose proof (proj1 (List.Forall_forall _ _) complementary_first_256 _ Hin) as H.
  cbv beta in H. rewrite Z2Nat.id in H by lia. exact H.
Qed.

End Complementary.

(** ** The telemetry reader *)

Lemma parse_lines_from (lines : list string) (acc : list Neighbor) :
  fold_left
    (fun neighbors line =>
       match parse_line line with
       | Some n => (neighbors ++ [n])%list
       | None => neighbors
       end)
    lines acc
  = (acc ++ omap parse_line lines)%list.
Proof.
  revert acc. induction lines as [|line lines IH]; intros acc; simpl.
  - now rewrite app_nil_r.
  - rewrite IH. destruct (parse_line line); simpl; [|reflexivity].
    now rewrite <- app_assoc.
Qed.

(** The loop keeps, in order, the records of the lines it can parse. *)
Lemma parse_lines_omap (lines : list string) :
  parse_lines lines = omap parse_line lines.
Proof. unfold parse_lines. now rewrite parse_lines_from. Qed.

Lemma first_of_filter {A} (p : A -> bool) (l : list A) :
  List.filter p l !! 0%nat = List.find p l.
Proof.
  induction l as [|x l IH]; simpl; [reflexivity|].
  destruct (p x); [reflexivity | exact IH].
Qed.

Lemma find_none_of_Forall {A} (p : A -> bool) (l : list A) :
  Forall (fun x => p x = false) l -> List.find p l = None.
Proof.
  induction 1 as [|x l Hx _ IH]; simpl; [reflexivity|].
  now rewrite Hx.
Qed.

Lemma nonempty_false (s : string) : PyStr.nonempty s = false <-> s = "".
Proof. destruct s; simpl; split; congruence. Qed.

(** The [try] body succeeds exactly on the token lists of the shape
    [well_formed] describes. *)
Lemma parse_fields_inr (parts : list string) (n : Neighbor) :
  parse_fields parts = inr n <->
  exists mac rest tq_token tq_field tq_val ls_token ls_val,
    parts = mac :: rest
    /\ List.find (PyStr.startswith "TQ:") parts = Some tq_token
    /\ PyStr.split_on ":" tq_token !! 1%nat = Some tq_field
    /\ PyNum.int tq_field = inr tq_val
    /\ List.find (PyStr.startswith "(") parts = Some ls_token
    /\ PyNum.int (PyStr.strip (PyStr.is_char "(") ls_token) = inr ls_val
    /\ n = {| neighbor := mac; last_seen_ms := ls_val;
              tq := tq_val; hop_count := 1 |}.
Proof.
  unfold parse_fields, next_such, item, mbind, exn_bind, mret, exn_ret.
  rewrite first_of_filter.
  split.
  - destruct parts as [|mac rest]; [discriminate|].
    cbn [lookup list_lookup].
    destruct (List.find (PyStr.startswith "TQ:") (mac :: rest))
      as [tq_token|] eqn:Etq; [|discriminate].
    destruct (PyStr.split_on ":" tq_token !! 1%nat)
      as [tq_field|] eqn:Efield; [|discriminate].
    destruct (PyNum.int tq_field) as [|tq_val] eqn:Eint; [discriminate|].
    destruct (List.find (PyStr.startswith "(") (mac :: rest))
      as [ls_token|] eqn:Els; [|discriminate].
    destruct (PyNum.int (PyStr.strip (PyStr.is_char "(") ls_token))
      as [|ls_val] eqn:Eint'; [discriminate|].
    intros [= <-].
    exists mac, rest, tq_token, tq_field, tq_val, ls_token, ls_val.
    repeat split; assumption.
  - intros (mac & rest & tq_token & tq_field & tq_val & ls_token & ls_val
            & -> & Etq & Efield & Eint & Els & Eint' & ->).
    cbn [lookup list_lookup].
    now rewrite Etq, Efield, Eint, Els, Eint'.
Qed.

(** A line gives a record exactly when it is well formed, and then that
    record. *)
Lemma parse_line_well_formed (line : string) (n : Neighbor) :
  parse_line line = Some n <-> well_formed line n.
Proof.
  unfold parse_line. cbv zeta. split.
  - destruct (PyStr.nonempty _) eqn:Ene; [|discriminate].
    destruct (PyStr.startswith "Originator" _) eqn:Ehead; [discriminate|].
    cbn [negb orb].
    destruct (parse_fields _) as [|n'] eqn:Efields; [discriminate|].
    intros [= <-].
    apply parse_fields_inr in Efields
      as (mac & rest & tq_token & tq_field & tq_val & ls_token & ls_val
          & Eparts & Etq & Efield & Eint & Els & Eint' & ->).
    rewrite Eparts in Etq, Els.
    eapply well_formed_intro; eauto.
    intros E. rewrite E in Ene. discriminate.
  - intros [mac rest tq_token tq_field tq_val ls_token ls_val text
              Hne Hhead Hparts Htq Hfield Hint Hls Hint'].
    fold text.
    destruct (PyStr.nonempty text) eqn:Ene;
      [|apply nonempty_false in Ene; contradiction].
    rewrite Hhead. cbn [negb orb].
    assert (E : parse_fields (PyStr.split text)
                = inr {| neighbor := mac; last_seen_ms := ls_val;
                         tq := tq_val; hop_count := 1 |}).
    { apply parse_fields_inr.
      exists mac, rest, tq_token, tq_field, tq_val, ls_token, ls_val.
      rewrite Hparts. repeat split; assumption. }
    now rewrite E.
Qed.

(** A line without a token that starts with [TQ:] is dropped. *)
Lemma parse_line_without_tq (line : string) :
  Forall (fun p => PyStr.startswith "TQ:" p = false)
         (PyStr.split (PyStr.strip PyStr.is_space line)) ->
  parse_line line = None.
Proof.
  intros Hno. unfold parse_line.
  destruct (negb _ || _); [reflexivity|].
  unfold parse_fields, next_such, mbind, exn_bind.
  destruct (item _ 0); [reflexivity|].
  now rewrite (find_none_of_Forall _ _ Hno).
Qed.

(** A line without a token that starts with an opening parenthesis is
    dropped. *)
Lemma parse_line_without_paren (line : string) :
  Forall (fun p => PyStr.startswith "(" p = false)
         (PyStr.split (PyStr.strip PyStr.is_space line)) ->
  parse_line line = None.
Proof.
  intros Hno.
  destruct (parse_line line) as [n|] eqn:Hline; [|reflexivity].
  apply parse_line_well_formed in Hline.
  destruct Hline as [mac rest tq_token tq_field tq_val ls_token ls_val text
                       _ _ Hparts _ _ _ Hls _].
  fold text in Hno. rewrite Hparts in Hno.
  now rewrite (find_none_of_Forall _ _ Hno) in Hls.
Qed.

(** What every line that gives a record has: it is no header, its first
    token is the identifier of the record, and it holds a token that starts
    with [TQ:] and one that starts with an opening parenthesis. *)
Lemma parse_line_needs (line : string) (n : Neighbor) :
  parse_line line = Some n ->
  let text := PyStr.strip PyStr.is_space line in
  PyStr.startswith "Originator" text = false
  /\ head (PyStr.split text) = Some (neighbor n)
  /\ hop_count n = 1
  /\ Exists (fun p => PyStr.startswith "TQ:" p = true) (PyStr.split text)
  /\ Exists (fun p => PyStr.startswith "(" p = true) (PyStr.split text).
Proof.
  intros Hline. apply parse_line_well_formed in Hline.
  destruct Hline as [mac rest tq_token tq_field tq_val ls_token ls_val text
                       _ Hhead Hparts Htq _ _ Hls _].
  cbv zeta. fold text. rewrite Hparts.
  split; [exact Hhead|]. split; [reflexivity|]. split; [reflexivity|].
  apply find_some in Htq as [Hin1 Hp1]. apply find_some in Hls as [Hin2 Hp2].
  split; apply Exists_exists.
  - exists tq_token. split; [now apply list_elem_of_In | exact Hp1].
  - exists ls_token. split; [now apply list_elem_of_In | exact Hp2].
Qed.

Lemma length_omap_kept (lines : list string) :
  length (omap parse_line lines) = length (kept lines).
Proof.
  unfold kept. induction lines as [|l lines IH]; simpl; [reflexivity|].
  destruct (parse_line l) as [n|] eqn:E; simpl.
  - f_equal. exact IH.
  - exact IH.
Qed.

(** ** Lines in the documented format *)

Lemma digit_is_plain (c : ascii) :
  PyStr.is_digit c = true ->
  PyStr.is_c_space c = false /\ PyStr.is_char ":" c = false
  /\ PyStr.is_char "(" c = false /\ PyStr.is_char "_" c = false.
Proof.
  destruct c as [[] [] [] [] [] [] [] []]; intros H;
    try discriminate H; repeat split; reflexivity.
Qed.

Lemma digit_count_digits (s : string) :
  all_chars PyStr.is_digit s = true ->
  PyNum.digit_count s = String.length s.
Proof.
  induction s as [|c s IH]; cbn; [reflexivity|].
  intros [Hc Hs]%andb_prop. now rewrite Hc, (IH Hs).
Qed.

Lemma all_chars_impl (p q : ascii -> bool) (s : string) :
  (forall c, p c = true -> q c = false) ->
  all_chars p s = true -> all_chars (fun c => negb (q c)) s = true.
Proof.
  intros Hpq. induction s as [|c s IH]; cbn; [reflexivity|].
  intros [Hc Hs]%andb_prop. now rewrite (Hpq c Hc), IH.
Qed.

Lemma lstrip_keeps (p : ascii -> bool) (s : string) :
  all_chars (fun c => negb (p c)) s = true -> PyStr.lstrip p s = s.
Proof.
  destruct s as [|c s]; cbn; [reflexivity|].
  intros [Hc _]%andb_prop. apply negb_true_iff in Hc. now rewrite Hc.
Qed.

Lemma rstrip_keeps (p : ascii -> bool) (s : string) :
  all_chars (fun c => negb (p c)) s = true -> PyStr.rstrip p s = s.
Proof.
  induction s as [|c s IH]; cbn; [reflexivity|].
  intros [Hc Hs]%andb_prop. apply negb_true_iff in Hc.
  rewrite (IH Hs). destruct s; [now rewrite Hc | reflexivity].
Qed.

Lemma strip_keeps (p : ascii -> bool) (s : string) :
  all_chars (fun c => negb (p c)) s = true -> PyStr.strip p s = s.
Proof.
  intros H. unfold PyStr.strip. now rewrite (lstrip_keeps _ _ H), rstrip_keeps.
Qed.

Lemma fields_keeps (sep : ascii -> bool) (s : string) :
  all_chars (fun c => negb (sep c)) s = true -> PyStr.fields sep s = [s].
Proof.
  induction s as [|c s IH]; cbn; [reflexivity|].
  intros [Hc Hs]%andb_prop. apply negb_true_iff in Hc.
  now rewrite Hc, (IH Hs).
Qed.

Lemma digits_value_digits (acc : Z) (s : string) :
  all_chars PyStr.is_digit s = true ->
  PyNum.digits_value acc true s = Some (number_of acc s).
Proof.
  revert acc. induction s as [|c s IH]; intros acc; cbn; [reflexivity|].
  intros [Hc Hs]%andb_prop. rewrite Hc. now apply IH.
Qed.

(** [int] reads a text of digits as the number it writes. *)
Lemma int_digits (s : string) :
  is_digits s = true -> PyNum.int s = inr (number_of 0 s).
Proof.
  unfold is_digits, digit_text.
  intros [[Hne Hall]%andb_prop Hlen]%andb_prop.
  unfold PyNum.int.
  rewrite strip_keeps
    by (apply (all_chars_impl PyStr.is_digit); [apply digit_is_plain | exact Hall]).
  rewrite (digit_count_digits _ Hall), Hlen.
  destruct s as [|c s]; [discriminate Hne|].
  cbn in Hall. apply andb_prop in Hall as [Hc Hs].
  assert (Hval : PyNum.digits_value 0 false (String c s)
                 = Some (number_of 0 (String c s))).
  { cbn. rewrite Hc. now apply digits_value_digits. }
  destruct c as [[] [] [] [] [] [] [] []]; try discriminate Hc;
    now rewrite Hval.
Qed.

Lemma tq_field_of_digits (s : string) :
  digit_text s = true -> PyStr.split_on ":" ("TQ:" ++ s) !! 1%nat = Some s.
Proof.
  unfold digit_text. intros [_ Hall]%andb_prop.
  change ("TQ:" ++ s) with (String "T" (String "Q" (String ":" s))).
  unfold PyStr.split_on. cbn.
  rewrite fields_keeps; [reflexivity|].
  apply (all_chars_impl PyStr.is_digit); [apply digit_is_plain | exact Hall].
Qed.

Lemma last_seen_of_digits (s : string) :
  digit_text s = true -> PyStr.strip (PyStr.is_char "(") ("(" ++ s) = s.
Proof.
  unfold digit_text. intros [_ Hall]%andb_prop.
  assert (Hplain : all_chars (fun c => negb (PyStr.is_char "(" c)) s = true)
    by (apply (all_chars_impl PyStr.is_digit);
        [apply digit_is_plain | exact Hall]).
  change ("(" ++ s) with (String "(" s).
  unfold PyStr.strip. cbn. now rewrite (lstrip_keeps _ _ Hplain), rstrip_keeps.
Qed.

Lemma is_digits_text (s : string) : is_digits s = true -> digit_text s = true.
Proof. unfold is_digits. now intros [H _]%andb_prop. Qed.

(** A line in the documented format is well formed, with the record it
    writes. *)
Lemma documented_well_formed (line : string) (n : Neighbor) :
  documented line n -> well_formed line n.
Proof.
  intros (rest & tq_digits & ls_digits
          & Hhead & Hparts & Htq & Hdq & Hq & Hls & Hdl & Hl & Hhop).
  destruct n as [mac ls q hop]. cbn in *. subst q ls hop.
  eapply well_formed_intro.
  - intros Hempty. rewrite Hempty in Hparts. discriminate Hparts.
  - exact Hhead.
  - exact Hparts.
  - exact Htq.
  - now apply tq_field_of_digits, is_digits_text.
  - now apply int_digits.
  - exact Hls.
  - rewrite last_seen_of_digits by now apply is_digits_text.
    now apply int_digits.
Qed.

(** The identifier of a record is the first token of its line. *)
Lemma parse_line_id (line : string) (n : Neighbor) :
  parse_line line = Some n -> line_id line = Some (neighbor n).
Proof.
  intros H. apply parse_line_well_formed in H.
  destruct H as [mac rest ? ? ? ? ? text _ _ Hparts _ _ _ _ _].
  unfold line_id. fold text. now rewrite Hparts.
Qed.

Lemma neighbors_of_kept (lines : list string) :
  neighbor <$> omap parse_line lines = omap line_id (kept lines).
Proof.
  unfold kept. induction lines as [|l lines IH]; simpl; [reflexivity|].
  destruct (parse_line l) as [n|] eqn:E; simpl.
  - rewrite (parse_line_id _ _ E). simpl. f_equal. exact IH.
  - exact IH.
Qed.

(** ** Texts the number parsers read *)

Lemma digit_val_nonneg (c : ascii) : PyStr.is_digit c = true -> 0 <= PyStr.digit_val c.
Proof.
  unfold PyStr.is_digit, PyStr.digit_val.
  intros [H _]%andb_prop. apply Nat.leb_le in H. lia.
Qed.

Lemma number_of_nonneg (acc : Z) (s : string) :
  0 <= acc -> all_chars PyStr.is_digit s = true -> 0 <= number_of acc s.
Proof.
  revert acc. induction s as [|c s IH]; intros acc Hacc; cbn; [lia|].
  intros [Hc Hs]%andb_prop. apply IH; [|exact Hs].
  pose proof (digit_val_nonneg c Hc). lia.
Qed.

Lemma take_digits_digits (acc : Z) (n : nat) (s : string) :
  all_chars PyStr.is_digit s = true ->
  PyNum.take_digits acc n s
  = (number_of acc s, (n + String.length s)%nat, EmptyString).
Proof.
  revert acc n. induction s as [|c s IH]; intros acc n; cbn.
  - intros _. now rewrite Nat.add_0_r.
  - intros [Hc Hs]%andb_prop. rewrite Hc, (IH _ _ Hs).
    now rewrite Nat.add_succ_r.
Qed.

Lemma drop_underscores_digits (prev : option ascii) (s : string) :
  match prev with
  | Some c => PyStr.is_char "_" c = false
  | None => True
  end ->
  all_chars PyStr.is_digit s = true ->
  PyNum.drop_underscores prev s = Some s.
Proof.
  revert prev.
  induction s as [|c s IH]; intros prev Hprev;
    cbn [PyNum.drop_underscores all_chars].
  - intros _. destruct prev as [c|]; [now rewrite Hprev | reflexivity].
  - intros [Hc Hs]%andb_prop.
    destruct (digit_is_plain c Hc) as (_ & _ & _ & Hund).
    rewrite Hund, Hc. cbn [negb]. rewrite (IH (Some c) Hund Hs).
    destruct prev; rewrite ?andb_false_r; reflexivity.
Qed.

(** The sign and the point of a number text, read by tests on its first
    character. *)
Lemma take_sign_eq (s : string) :
  PyNum.take_sign s
  = match s with
    | String c r =>
        if PyStr.is_char "+" c then (false, r)
        else if PyStr.is_char "-" c then (true, r) else (false, s)
    | EmptyString => (false, s)
    end.
Proof.
  destruct s as [|c r]; [reflexivity|].
  destruct c as [[] [] [] [] [] [] [] []]; reflexivity.
Qed.

Lemma decimal_eq (s : string) :
  PyNum.decimal s
  = let '(ip, ni, r1) := PyNum.take_digits 0 0 s in
    let '(m, nf, r2) :=
      match r1 with
      | String c r =>
          if PyStr.is_char "." c then PyNum.take_digits ip 0 r
          else (ip, 0%nat, r1)
      | EmptyString => (ip, 0%nat, r1)
      end in
    if (ni + nf =? 0)%nat then None
    else match r2 with
         | EmptyString => Some (m, - Z.of_nat nf)
         | String c r3 =>
             if PyStr.is_char "e" (PyStr.lower c) then
               let '(eneg, r4) := PyNum.take_sign r3 in
               let '(ev, ne, r5) := PyNum.take_digits 0 0 r4 in
               if (ne =? 0)%nat then None
               else if PyStr.nonempty r5 then None
                    else Some (m, (if eneg then - ev else ev) - Z.of_nat nf)
             else None
         end.
Proof.
  unfold PyNum.decimal.
  destruct (PyNum.take_digits 0 0 s) as [[ip ni] r1].
  destruct r1 as [|c r]; [reflexivity|].
  destruct c as [[] [] [] [] [] [] [] []]; reflexivity.
Qed.

Lemma float_of_whole (m : Z) :
  0 <= m -> PyNum.float_of_decimal false m 0 = PyNum.float_of_int m.
Proof.
  intros Hm. destruct m as [|p|p]; [reflexivity| |lia].
  unfold PyNum.float_of_decimal, PyNum.float_of_int.
  cbn [Z.leb Z.compare]. now rewrite Z.pow_0_r, Z.mul_1_r.
Qed.

Lemma digit_starts_no_word (c : ascii) (s word : string) :
  PyStr.is_digit c = true ->
  all_chars (fun x => negb (PyStr.is_digit x)) word = true ->
  PyStr.nonempty word = true ->
  (PyStr.lowercase (String c s) =? word) = false.
Proof.
  intros Hc Hword Hne. apply String.eqb_neq. intros E.
  destruct word as [|x word]; [discriminate Hne|].
  cbn in E, Hword. injection E as E _.
  apply andb_prop in Hword as [Hx _]. rewrite <- E in Hx.
  destruct c as [[] [] [] [] [] [] [] []]; try discriminate Hc;
    discriminate Hx.
Qed.

(** [float] reads a text of digits as the number it writes. *)
Lemma float_digits (d : string) :
  digit_text d = true ->
  PyNum.float d = inr (PyNum.float_of_int (number_of 0 d)).
Proof.
  unfold digit_text. intros [Hne Hall]%andb_prop.
  unfold PyNum.float.
  rewrite strip_keeps
    by (apply (all_chars_impl PyStr.is_digit);
        [apply digit_is_plain | exact Hall]).
  rewrite (drop_underscores_digits None d I Hall).
  destruct d as [|c s]; [discriminate Hne|].
  pose proof Hall as Hall'. cbn in Hall'.
  apply andb_prop in Hall' as [Hc Hs].
  rewrite take_sign_eq.
  assert (Hplus : PyStr.is_char "+" c = false)
    by (destruct c as [[] [] [] [] [] [] [] []]; try discriminate Hc;
        reflexivity).
  assert (Hminus : PyStr.is_char "-" c = false)
    by (destruct c as [[] [] [] [] [] [] [] []]; try discriminate Hc;
        reflexivity).
  rewrite Hplus, Hminus.
  rewrite !(digit_starts_no_word c s) by (exact Hc || reflexivity).
  cbn [orb].
  rewrite decimal_eq, (take_digits_digits 0 0 _ Hall).
  cbn [String.length Nat.add Nat.eqb Z.of_nat Z.opp].
  rewrite float_of_whole; [reflexivity|].
  apply number_of_nonneg; [lia | exact Hall].
Qed.

(** Characters that survive the steps of [float]. *)
Lemma lstrip_has_char (p q : ascii -> bool) (s : string) :
  (forall c, p c = true -> q c = false) ->
  has_char q (PyStr.lstrip p s) = has_char q s.
Proof.
  intros Hpq. induction s as [|c s IH]; cbn; [reflexivity|].
  destruct (p c) eqn:Hc; [|reflexivity].
  now rewrite IH, (Hpq c Hc).
Qed.

Lemma rstrip_has_char (p q : ascii -> bool) (s : string) :
  (forall c, p c = true -> q c = false) ->
  has_char q (PyStr.rstrip p s) = has_char q s.
Proof.
  intros Hpq. induction s as [|c s IH]; cbn; [reflexivity|].
  destruct (PyStr.rstrip p s) as [|c' r] eqn:Hr.
  - cbn in IH. rewrite <- IH.
    destruct (p c) eqn:Hc; cbn; [now rewrite (Hpq c Hc) | now rewrite orb_false_r].
  - cbn [has_char]. now rewrite <- IH.
Qed.

Lemma strip_has_char (p q : ascii -> bool) (s : string) :
  (forall c, p c = true -> q c = false) ->
  has_char q (PyStr.strip p s) = has_char q s.
Proof.
  intros Hpq. unfold PyStr.strip.
  now rewrite rstrip_has_char, lstrip_has_char.
Qed.

Lemma has_char_drop_underscores (p : ascii -> bool) (prev : option ascii)
      (s t : string) :
  (forall c, p c = true -> PyStr.is_char "_" c = false) ->
  PyNum.drop_underscores prev s = Some t ->
  has_char p s = true -> has_char p t = true.
Proof.
  intros Hp. revert prev t.
  induction s as [|c s IH]; intros prev t;
    cbn [PyNum.drop_underscores has_char]; [discriminate 2|].
  destruct (PyStr.is_char "_" c) eqn:Hund.
  - intros Hdrop H. destruct (p c) eqn:Hpc.
    + rewrite (Hp c Hpc) in Hund. discriminate Hund.
    + destruct prev as [d|]; [|discriminate Hdrop].
      destruct (PyStr.is_digit d); [|discriminate Hdrop]. eauto.
  - intros Hdrop H.
    assert (Hrest : exists t', PyNum.drop_underscores (Some c) s = Some t'
                               /\ t = String c t').
    { destruct prev as [d|].
      - destruct (PyStr.is_char "_" d && negb (PyStr.is_digit c));
          [discriminate Hdrop|].
        destruct (PyNum.drop_underscores (Some c) s) as [t'|];
          [|discriminate Hdrop]. injection Hdrop as <-. eauto.
      - destruct (PyNum.drop_underscores (Some c) s) as [t'|];
          [|discriminate Hdrop]. injection Hdrop as <-. eauto. }
    destruct Hrest as (t' & Hdrop' & ->). cbn [has_char].
    destruct (p c); [reflexivity|]. cbn [orb] in H |- *. eauto.
Qed.

Lemma has_char_take_digits (p : ascii -> bool) (acc : Z) (n : nat)
      (s : string) :
  (forall c, p c = true -> PyStr.is_digit c = false) ->
  has_char p s = true ->
  has_char p (snd (PyNum.take_digits acc n s)) = true.
Proof.
  intros Hp. revert acc n. induction s as [|c s IH]; intros acc n; cbn;
    [discriminate|].
  intros H. destruct (PyStr.is_digit c) eqn:Hd; [|exact H].
  apply IH. destruct (p c) eqn:Hpc; [|exact H].
  rewrite (Hp c Hpc) in Hd. discriminate.
Qed.

Lemma has_char_take_sign (p : ascii -> bool) (s : string) :
  (forall c, p c = true ->
             PyStr.is_char "+" c = false /\ PyStr.is_char "-" c = false) ->
  has_char p s = true -> has_char p (snd (PyNum.take_sign s)) = true.
Proof.
  intros Hp H. rewrite take_sign_eq. destruct s as [|c r]; [exact H|].
  cbn in H. destruct (p c) eqn:Hpc.
  - destruct (Hp c Hpc) as [-> ->]. cbn. now rewrite Hpc.
  - destruct (PyStr.is_char "+" c); [exact H|].
    destruct (PyStr.is_char "-" c); [exact H|]. cbn. now rewrite Hpc.
Qed.

Lemma has_char_lowercase (q : ascii -> bool) (s : string) :
  has_char q (PyStr.lowercase s) = has_char (fun c => q (PyStr.lower c)) s.
Proof. induction s as [|c s IH]; cbn; [reflexivity | now rewrite IH]. Qed.

Lemma has_char_impl (p q : ascii -> bool) (s : string) :
  (forall c, p c = true -> q c = true) ->
  has_char p s = true -> has_char q s = true.
Proof.
  intros Hpq. induction s as [|c s IH]; cbn; [discriminate|].
  intros [Hc | Hs]%orb_prop; [rewrite (Hpq c Hc) | rewrite (IH Hs)];
    auto using orb_true_r.
Qed.

(** What a character outside the alphabet of [float] is not. *)
Lemma outside_float_alphabet (c : ascii) :
  float_char c = false ->
  PyStr.is_c_space c = false /\ PyStr.is_digit c = false
  /\ PyStr.is_char "+" c = false /\ PyStr.is_char "-" c = false
  /\ PyStr.is_char "." c = false /\ PyStr.is_char "_" c = false
  /\ PyStr.is_char "e" (PyStr.lower c) = false
  /\ float_letter c = false.
Proof.
  destruct c as [[] [] [] [] [] [] [] []]; intros H;
    try discriminate H; repeat split; reflexivity.
Qed.

(** A text that holds a character outside that alphabet is no decimal
    number. *)
Lemma decimal_rejects (s : string) :
  has_char (fun c => negb (float_char c)) s = true -> PyNum.decimal s = None.
Proof.
  set (bad := fun c => negb (float_char c)).
  assert (Hbad : forall c, bad c = true -> float_char c = false)
    by (intros c; unfold bad; apply negb_true_iff).
  intros H. rewrite decimal_eq.
  pose proof (has_char_take_digits bad 0 0 s
                (fun c Hc => proj1 (proj2 (outside_float_alphabet c (Hbad c Hc))))
                H) as H1.
  destruct (PyNum.take_digits 0 0 s) as [[ip ni] r1]. cbn [snd] in H1.
  assert (H2 : has_char bad
                 (snd (match r1 with
                       | String c r =>
                           if PyStr.is_char "." c then PyNum.take_digits ip 0 r
                           else (ip, 0%nat, r1)
                       | EmptyString => (ip, 0%nat, r1)
                       end)) = true).
  { destruct r1 as [|c r]; [exact H1|].
    destruct (PyStr.is_char "." c) eqn:Hpt; [|exact H1].
    cbn in H1. destruct (bad c) eqn:Hc.
    - destruct (outside_float_alphabet c (Hbad c Hc))
        as (_ & _ & _ & _ & Hno & _). congruence.
    - apply has_char_take_digits; [|exact H1].
      intros x Hx. apply (outside_float_alphabet x (Hbad x Hx)). }
  destruct (match r1 with
            | String c r =>
                if PyStr.is_char "." c then PyNum.take_digits ip 0 r
                else (ip, 0%nat, r1)
            | EmptyString => (ip, 0%nat, r1)
            end) as [[m nf] r2]. cbn [snd] in H2.
  destruct (ni + nf =? 0)%nat; [reflexivity|].
  destruct r2 as [|c r3]; [discriminate H2|].
  destruct (PyStr.is_char "e" (PyStr.lower c)) eqn:He; [|reflexivity].
  cbn in H2. destruct (bad c) eqn:Hc.
  { destruct (outside_float_alphabet c (Hbad c Hc))
      as (_ & _ & _ & _ & _ & _ & Hno & _). congruence. }
  pose proof (has_char_take_sign bad r3
                (fun x Hx =>
                   let H := outside_float_alphabet x (Hbad x Hx) in
                   conj (proj1 (proj2 (proj2 H)))
                        (proj1 (proj2 (proj2 (proj2 H)))))
                H2) as H3.
  destruct (PyNum.take_sign r3) as [eneg r4]. cbn [snd] in H3.
  pose proof (has_char_take_digits bad 0 0 r4
                (fun x Hx => proj1 (proj2 (outside_float_alphabet x (Hbad x Hx))))
                H3) as H4.
  destruct (PyNum.take_digits 0 0 r4) as [[ev ne] r5]. cbn [snd] in H4.
  destruct (ne =? 0)%nat; [reflexivity|].
  destruct r5; [discriminate H4 | reflexivity].
Qed.

(** [float] raises on a text that holds a character outside its alphabet. *)
Lemma float_rejects (s : string) :
  has_char (fun c => negb (float_char c)) s = true ->
  PyNum.float s = inl ValueError.
Proof.
  set (bad := fun c => negb (float_char c)).
  assert (Hbad : forall c, bad c = true -> float_char c = false)
    by (intros c; unfold bad; apply negb_true_iff).
  intros H. unfold PyNum.float.
  assert (H1 : has_char bad (PyStr.strip PyStr.is_c_space s) = true).
  { rewrite strip_has_char; [exact H|].
    intros c Hc. destruct (bad c) eqn:Hb; [|reflexivity].
    destruct (outside_float_alphabet c (Hbad c Hb)) as [Hsp _]. congruence. }
  destruct (PyNum.drop_underscores None _) as [t|] eqn:Hdrop; [|reflexivity].
  pose proof (has_char_drop_underscores bad None _ t
                (fun c Hc =>
                   proj1 (proj2 (proj2 (proj2 (proj2 (proj2
                     (outside_float_alphabet c (Hbad c Hc))))))))
                Hdrop H1) as H2.
  pose proof (has_char_take_sign bad t
                (fun x Hx =>
                   let H := outside_float_alphabet x (Hbad x Hx) in
                   conj (proj1 (proj2 (proj2 H)))
                        (proj1 (proj2 (proj2 (proj2 H)))))
                H2) as H3.
  destruct (PyNum.take_sign t) as [neg body]. cbn [snd] in H3.
  assert (Hword : forall word,
             has_char (fun c => negb (float_letter c)) word = false ->
             (PyStr.lowercase body =? word) = false).
  { intros word Hw. apply String.eqb_neq. intros E.
    assert (Hl : has_char (fun c => negb (float_letter c))
                          (PyStr.lowercase body) = true).
    { rewrite has_char_lowercase.
      apply (has_char_impl bad); [|exact H3].
      intros c Hc.
      destruct (outside_float_alphabet c (Hbad c Hc))
        as (_ & _ & _ & _ & _ & _ & _ & Hno).
      apply negb_true_iff.
      destruct c as [[] [] [] [] [] [] [] []]; try discriminate Hno;
        reflexivity. }
    rewrite E in Hl. congruence. }
  rewrite !Hword by reflexivity. cbn [orb].
  now rewrite (decimal_rejects body H3).
Qed.

(** Among the whole numbers up to 1000, the percentages are those up to
    100. *)
Lemma whole_percentages :
  forallb (fun i => Bool.eqb (in_percent_range (PyNum.float_of_int (Z.of_nat i)))
                             (Z.of_nat i <=? 100)%Z)
          (seq 0 1001) = true.
Proof. vm_compute. reflexivity. Qed.

Lemma whole_percentage (n : Z) :
  0 <= n <= 1000 ->
  in_percent_range (PyNum.float_of_int n) = (n <=? 100)%Z.
Proof.
  intros Hn.
  assert (Hin : In (Z.to_nat n) (seq 0 1001)) by (apply in_seq; lia).
  pose proof (proj1 (forallb_forall _ _) whole_percentages _ Hin) as H.
  cbv beta in H. rewrite Z2Nat.id in H by lia. now apply Bool.eqb_prop.
Qed.

(** ** The metric log *)

Lemma is_header_iff (r : row) : is_header r = true <-> r = header_row.
Proof.
  unfold is_header. rewrite bool_decide_eq_true. split; [|now intros ->].
  intros H.
  do 8 (destruct r as [|[] r]; try discriminate H).
  now injection H as -> -> -> -> -> -> ->.
Qed.

Lemma data_row_not_header (w : World) (n : Neighbor) :
  is_header (data_row w n) = false.
Proof. reflexivity. Qed.

Lemma header_count_app (rows rows' : list row) :
  header_count (rows ++ rows') = (header_count rows + header_count rows')%nat.
Proof. unfold header_count. now rewrite List.filter_app, length_app. Qed.

Lemma header_count_data (w : World) (ns : list Neighbor) :
  header_count (data_row w <$> ns) = 0%nat.
Proof. induction ns as [|n ns IH]; [reflexivity | exact IH]. Qed.

Lemma set_log_files_same (st : State) : set_log_files (log_files st) st = st.
Proof. now destruct st. Qed.

Lemma alter_present {A} (f : A -> A) (m : gmap date A) (d : date) (x : A) :
  m !! d = Some x -> alter f d m = <[d := f x]> m.
Proof.
  intros H. apply map_eq. intros d'.
  destruct (decide (d = d')) as [<-|Hne].
  - now rewrite lookup_alter_eq, lookup_insert_eq, H.
  - now rewrite lookup_alter_ne, lookup_insert_ne.
Qed.

(** The row loop without a fault appends the rows of the neighbors, in
    order, to the open file. *)
Lemma write_rows {A} (w : World) (f : A -> row) (d : date) (l : list A)
      (i : nat) (st : State) (rows : list row) :
  log_fault w = None ->
  log_files st !! d = Some rows ->
  for_each_from i l (fun i x => writerow w d i (f x)) st
  = (set_log_files (<[d := (rows ++ (f <$> l))%list]> (log_files st)) st, inr tt).
Proof.
  intros Hfault. revert i st rows.
  induction l as [|x l IH]; intros i st rows Hd.
  - simpl. rewrite app_nil_r, insert_id by exact Hd.
    now rewrite set_log_files_same.
  - cbn [for_each_from]. unfold mbind, M_bind, writerow at 1.
    rewrite Hfault. unfold modify.
    rewrite (alter_present _ _ _ _ Hd).
    erewrite IH by (cbn; apply lookup_insert_eq).
    cbn. rewrite insert_insert_eq, <- app_assoc. reflexivity.
Qed.

(** The row loop under a fault of the file: some of the rows reach the
    file, and the loop ends normally or with the exception of the fault. *)
Lemma write_rows_faulty {A} (w : World) (f : A -> row) (d : date)
      (l : list A) (i : nat) (st : State) (rows : list row)
      (kept : nat) (what : string) :
  log_fault w = Some (WriteFails kept what) ->
  log_files st !! d = Some rows ->
  exists j r,
    for_each_from i l (fun i x => writerow w d i (f x)) st
    = (set_log_files
         (<[d := (rows ++ take j (f <$> l))%list]> (log_files st)) st, r)
    /\ (r = inr tt \/ r = inl (OSError what)).
Proof.
  intros Hfault. revert i st rows.
  induction l as [|x l IH]; intros i st rows Hd.
  - exists 0%nat, (inr tt). split; [|now left].
    simpl. rewrite app_nil_r, insert_id by exact Hd.
    now rewrite set_log_files_same.
  - cbn [for_each_from]. unfold mbind, M_bind, writerow at 1.
    rewrite Hfault. destruct (i =? kept)%nat.
    + exists 0%nat, (inl (OSError what)). split; [|now right].
      unfold raise. cbn [take]. rewrite app_nil_r, insert_id by exact Hd.
      now rewrite set_log_files_same.
    + unfold modify. rewrite (alter_present _ _ _ _ Hd).
      destruct (IH (S i)
                  (set_log_files (<[d := (rows ++ [f x])%list]> (log_files st)) st)
                  (rows ++ [f x])%list) as (j & r & Hrun & Hr).
      { cbn. apply lookup_insert_eq. }
      exists (S j), r. split; [|exact Hr].
      rewrite Hrun. cbn. rewrite insert_insert_eq, <- app_assoc. reflexivity.
Qed.

(** What an append without a fault does: the directory exists afterwards
    and the file of the day holds its old rows, the header when the file is
    new, and one row for each neighbor. *)
Lemma log_metrics_ok (w : World) (ns : list Neighbor) (st : State) :
  log_fault w = None ->
  let d := dt_date (utcnow_path w) in
  log_metrics w ns st
  = (set_log_files
       (<[d := match log_files st !! d with
               | Some rows => (rows ++ (data_row w <$> ns))%list
               | None => header_row :: (data_row w <$> ns)
               end]> (log_files st))
       (set_log_dir true st),
     inr tt).
Proof.
  intros Hfault d.
  unfold log_metrics, mkdir, open_append, close. rewrite Hfault.
  unfold mbind, M_bind, modify, gets. cbn [log_files set_log_dir].
  fold d. destruct (log_files st !! d) as [rows|] eqn:Hd.
  - rewrite bool_decide_true by eauto. cbn [negb mret M_ret].
    rewrite (write_rows w (data_row w) d ns 0 _ rows Hfault) by exact Hd.
    reflexivity.
  - rewrite bool_decide_false by (intros [? ?]; discriminate).
    cbn [negb]. unfold writerow at 1, modify. rewrite Hfault.
    cbn [log_files set_log_files].
    rewrite (alter_present _ _ d []) by apply lookup_insert_eq.
    rewrite insert_insert_eq.
    rewrite (write_rows w (data_row w) d ns 1 _ ([] ++ [header_row])%list
               Hfault)
      by (cbn; apply lookup_insert_eq).
    cbn. rewrite insert_insert_eq. reflexivity.
Qed.

(** What an append does when the directory or the opening fails: nothing is
    written. *)
Lemma log_metrics_mkdir_fails (w : World) (ns : list Neighbor) (st : State)
      (what : string) :
  log_fault w = Some (MkdirFails what) ->
  log_metrics w ns st = (st, inl (OSError what)).
Proof.
  intros Hfault. unfold log_metrics, mkdir. now rewrite Hfault.
Qed.

Lemma log_metrics_open_fails (w : World) (ns : list Neighbor) (st : State)
      (what : string) :
  log_fault w = Some (OpenFails what) ->
  log_metrics w ns st = (set_log_dir true st, inl (OSError what)).
Proof.
  intros Hfault. unfold log_metrics, mkdir, open_append. now rewrite Hfault.
Qed.

(** What an append does when a write or the closing fails: the file of the
    day exists and has gained some of the rows of the append, the header
    first when the file is new. *)
Lemma log_metrics_write_fails (w : World) (ns : list Neighbor) (st : State)
      (kept : nat) (what : string) :
  log_fault w = Some (WriteFails kept what) ->
  let d := dt_date (utcnow_path w) in
  exists j,
    log_metrics w ns st
    = (set_log_files
         (<[d := match log_files st !! d with
                 | Some rows => (rows ++ take j (data_row w <$> ns))%list
                 | None => take j (header_row :: (data_row w <$> ns))
                 end]> (log_files st))
         (set_log_dir true st),
       inl (OSError what)).
Proof.
  intros Hfault d.
  unfold log_metrics, mkdir, open_append, close. rewrite Hfault.
  unfold mbind, M_bind, modify, gets. cbn [log_files set_log_dir].
  fold d. destruct (log_files st !! d) as [rows|] eqn:Hd.
  - rewrite bool_decide_true by eauto. cbn [negb mret M_ret].
    match goal with
    | |- context [for_each_from _ _ _ ?s] =>
        destruct (write_rows_faulty w (data_row w) d ns 0 s
                    rows kept what Hfault Hd) as (j & r & Hrun & Hr)
    end.
    exists j.
    match goal with
    | |- context [for_each_from ?i0 ns ?f ?s] =>
        change (for_each_from i0 ns f s)
          with (for_each_from i0 ns (fun k x => writerow w d k (data_row w x)) s)
    end.
    rewrite Hrun. destruct Hr as [-> | ->]; reflexivity.
  - rewrite bool_decide_false by (intros [? ?]; discriminate).
    cbn [negb]. unfold writerow at 1. rewrite Hfault.
    destruct kept as [|kept'].
    + exists 0%nat. reflexivity.
    + cbn [Nat.eqb]. unfold modify. cbn [log_files set_log_files].
      rewrite (alter_present _ _ d []) by apply lookup_insert_eq.
      rewrite insert_insert_eq.
      match goal with
      | |- context [for_each_from _ _ _ ?s] =>
          destruct (write_rows_faulty w (data_row w) d ns 1 s
                      ([] ++ [header_row])%list (S kept') what Hfault)
            as (j & r & Hrun & Hr)
      end.
      { cbn. apply lookup_insert_eq. }
      exists (S j).
      match goal with
      | |- context [for_each_from ?i0 ns ?f ?s] =>
          change (for_each_from i0 ns f s)
            with (for_each_from i0 ns (fun k x => writerow w d k (data_row w x)) s)
      end.
      rewrite Hrun. cbn. rewrite insert_insert_eq.
      destruct Hr as [-> | ->]; reflexivity.
Qed.

(** The files an append leaves, failed or not: those it found, but that the
    file of the day may have gained some of the rows of the append, after the
    header when it is new. *)
Lemma log_metrics_files (w : World) (ns : list Neighbor) (st : State) :
  let d := dt_date (utcnow_path w) in
  log_files (fst (log_metrics w ns st)) = log_files st
  \/ exists j,
       log_files (fst (log_metrics w ns st))
       = <[d := match log_files st !! d with
                | Some rows => (rows ++ take j (data_row w <$> ns))%list
                | None => take j (header_row :: (data_row w <$> ns))
                end]> (log_files st).
Proof.
  intros d. destruct (log_fault w) as [[what|what|kept what]|] eqn:Hfault.
  - left. now rewrite (log_metrics_mkdir_fails _ _ _ _ Hfault).
  - left. now rewrite (log_metrics_open_fails _ _ _ _ Hfault).
  - right. destruct (log_metrics_write_fails w ns st kept what Hfault)
      as (j & ->). now exists j.
  - right. rewrite (log_metrics_ok _ _ _ Hfault).
    exists (S (length ns)). cbn [fst log_files set_log_files]. fold d.
    destruct (log_files st !! d); cbn [take].
    + now rewrite firstn_all2 by (rewrite length_fmap; lia).
    + now rewrite firstn_all2 by (rewrite length_fmap; lia).
Qed.

(** An append, failed or not, leaves the globals and the output alone. *)
Lemma log_metrics_frame (w : World) (ns : list Neighbor) (st : State) :
  let st' := fst (log_metrics w ns st) in
  MODEL st' = MODEL st
  /\ LAST_PREDICT_TIME st' = LAST_PREDICT_TIME st
  /\ stdout st' = stdout st.
Proof.
  destruct (log_fault w) as [[what|what|kept what]|] eqn:Hfault.
  - rewrite (log_metrics_mkdir_fails _ _ _ _ Hfault). cbn; auto.
  - rewrite (log_metrics_open_fails _ _ _ _ Hfault). cbn; auto.
  - destruct (log_metrics_write_fails w ns st kept what Hfault) as (j & ->).
    cbn; auto.
  - rewrite (log_metrics_ok _ _ _ Hfault). cbn. auto.
Qed.

Lemma headers_once_insert (files : gmap date (list row)) (d : date)
      (rows : list row) :
  headers_once files -> header_count rows = 1%nat ->
  headers_once (<[d := rows]> files).
Proof. intros Hfiles Hrows. now apply map_Forall_insert_2. Qed.

(** An append without a fault keeps the header single in every file. *)
Lemma log_metrics_headers_once (w : World) (ns : list Neighbor) (st : State) :
  log_fault w = None ->
  headers_once (log_files st) ->
  headers_once (log_files (fst (log_metrics w ns st))).
Proof.
  intros Hfault Hinv.
  rewrite (log_metrics_ok _ _ _ Hfault). cbn.
  apply headers_once_insert; [exact Hinv|].
  destruct (log_files st !! _) as [rows|] eqn:Hd.
  - rewrite header_count_app, header_count_data, Nat.add_0_r.
    exact (Hinv _ _ Hd).
  - change (header_row :: (data_row w <$> ns))
      with ([header_row] ++ (data_row w <$> ns))%list.
    now rewrite header_count_app, header_count_data.
Qed.

(** ** Prediction *)

(** Comparison of binary64 numbers: swapping the arguments turns the
    outcome around, and only a NaN is unordered. *)
Lemma SFcompare_swap (x y : spec_float) :
  SFcompare y x = CompOpp <$> SFcompare x y.
Proof.
  destruct x as [sx|sx| |sx mx ex], y as [sy|sy| |sy my ey];
    try destruct sx; try destruct sy; try reflexivity;
    cbn [SFcompare fmap option_fmap option_map];
    rewrite (Z.compare_antisym ex ey);
    destruct (ex ?= ey)%Z; cbn [CompOpp]; try reflexivity;
    rewrite (Pos.compare_cont_antisym _ _ Eq); cbn [CompOpp];
    destruct (Pos.compare_cont Eq mx my); reflexivity.
Qed.

Lemma SFcompare_refl (x : spec_float) :
  SFcompare x x = match x with S754_nan => None | _ => Some Eq end.
Proof.
  destruct x as [s|s| |s m e]; try destruct s; try reflexivity;
    cbn [SFcompare]; rewrite Z.compare_refl, Pos.compare_cont_refl;
    reflexivity.
Qed.

Lemma SFcompare_unordered (x y : spec_float) :
  SFcompare x y = None -> x = S754_nan \/ y = S754_nan.
Proof.
  destruct x as [sx|sx| |sx mx ex], y as [sy|sy| |sy my ey];
    try destruct sx; try destruct sy; cbn; auto; discriminate.
Qed.

Lemma not_a_number_spec (x : float) :
  not_a_number x = true <-> Prim2SF x = S754_nan.
Proof.
  unfold not_a_number. rewrite FloatAxioms.eqb_spec. unfold SFeqb.
  rewrite SFcompare_refl.
  destruct (Prim2SF x); cbn; split; auto; discriminate.
Qed.

(** The test on the clock fails exactly when the computed difference of the
    readings is at least the interval, or is no number. *)
Lemma too_soon_false (now last : float) :
  too_soon now last = false
  <-> interval_elapsed now last = true
      \/ not_a_number (now - last)%float = true.
Proof.
  unfold too_soon, interval_elapsed. rewrite not_a_number_spec.
  rewrite FloatAxioms.ltb_spec, FloatAxioms.leb_spec. unfold SFltb, SFleb.
  set (x := Prim2SF (now - last)).
  set (five := Prim2SF (PyNum.float_of_int PREDICT_INTERVAL_SEC)).
  rewrite (SFcompare_swap x five).
  destruct (SFcompare x five) as [[ | | ]|] eqn:Hcmp;
    cbn [fmap option_fmap option_map CompOpp]; split; auto;
    try discriminate.
  - intros [Hbad | Hnan]; [discriminate|].
    rewrite Hnan in Hcmp. discriminate.
  - intros _. apply SFcompare_unordered in Hcmp as [Hnan | Hbad]; [now right|].
    vm_compute in Hbad. discriminate.
Qed.

Lemma dueb_due (w : World) (st : State) : dueb w st = true <-> due w st.
Proof.
  unfold dueb, due. destruct (MODEL st) as [model|].
  - rewrite negb_true_iff. split; [eauto | tauto].
  - split; [discriminate | intros [[? [=]] _]].
Qed.

Lemma emit_emit_all (ev : Event) (st : State) : emit ev st = emit_all [ev] st.
Proof. reflexivity. Qed.

Lemma emit_all_nil (st : State) : emit_all [] st = st.
Proof. destruct st. unfold emit_all. cbn. now rewrite app_nil_r. Qed.

Lemma emit_all_app (evs evs' : list Event) (st : State) :
  emit_all evs' (emit_all evs st) = emit_all (evs ++ evs') st.
Proof. unfold emit_all. cbn. now rewrite app_assoc. Qed.

(** The scoring loop, when the model answers for every neighbor. *)
Lemma score_pass (model : Model) (w : World) (ns : list Neighbor)
      (probs : list float) (st : State) :
  Forall2 (fun n p => model (features_of w n) = inr p) ns probs ->
  for_each ns (score_one model w) st
  = (emit_all (score_events (zip ns probs)) st, inr tt).
Proof.
  intros H. revert st. induction H as [|n p ns probs Hp _ IH]; intros st.
  - cbn. now rewrite emit_all_nil.
  - cbn [for_each]. unfold mbind, M_bind, score_one at 1, lift, print, modify.
    unfold mbind, M_bind. rewrite Hp.
    cbn [zip_with score_events flat_map].
    destruct (PREDICTION_THRESHOLD <=? p)%float; cbn [mret M_ret];
      rewrite IH, !emit_emit_all, !emit_all_app; reflexivity.
Qed.

(** The scoring loop, whatever the model does: it touches nothing but the
    output, where it writes no call of [sleep]. *)
Lemma score_loop_frame (model : Model) (w : World) (ns : list Neighbor)
      (st : State) :
  exists new,
    fst (for_each ns (score_one model w) st) = emit_all new st
    /\ sleeps new = 0%nat.
Proof.
  revert st. induction ns as [|n ns IH]; intros st.
  - exists []. cbn. now rewrite emit_all_nil.
  - cbn [for_each]. unfold mbind, M_bind, score_one at 1, lift, print, modify.
    unfold mbind, M_bind.
    destruct (model (features_of w n)) as [e|p].
    + exists []. cbn. now rewrite emit_all_nil.
    + destruct (PREDICTION_THRESHOLD <=? p)%float; cbn [mret M_ret].
      * destruct (IH (emit (Action (neighbor n) p)
                        (emit (Predict (neighbor n) (tq n) (hop_count n) p) st)))
          as (new & Hnew & Hsl).
        eexists. rewrite Hnew, !emit_emit_all, !emit_all_app.
        split; [reflexivity|]. exact Hsl.
      * destruct (IH (emit (Predict (neighbor n) (tq n) (hop_count n) p) st))
          as (new & Hnew & Hsl).
        eexists. rewrite Hnew, !emit_emit_all, !emit_all_app.
        split; [reflexivity|]. exact Hsl.
Qed.

(** [maybe_predict_and_act] unfolded along its two guards. *)
Lemma maybe_predict_and_act_eq (w : World) (ns : list Neighbor) (st : State) :
  maybe_predict_and_act w ns st
  = match MODEL st with
    | None => (st, inr tt)
    | Some model =>
        if too_soon (time_now w) (LAST_PREDICT_TIME st)
        then (st, inr tt)
        else for_each ns (score_one model w)
               (set_LAST_PREDICT_TIME (time_now w) st)
    end.
Proof.
  unfold maybe_predict_and_act, mbind, M_bind, gets.
  destruct (MODEL st) as [model|]; [|reflexivity].
  unfold too_soon. destruct (PrimFloat.ltb _ _); reflexivity.
Qed.

Lemma not_due_skips (w : World) (ns : list Neighbor) (st : State) :
  ~ due w st -> maybe_predict_and_act w ns st = (st, inr tt).
Proof.
  intros Hnot. rewrite maybe_predict_and_act_eq.
  destruct (MODEL st) as [model|] eqn:Hm; [|reflexivity].
  destruct (too_soon _ _) eqn:Hlt; [reflexivity|].
  exfalso. apply Hnot. split; [rewrite Hm; eauto|]. exact Hlt.
Qed.

Lemma due_scores (w : World) (ns : list Neighbor) (st : State) (model : Model) :
  MODEL st = Some model -> due w st ->
  maybe_predict_and_act w ns st
  = for_each ns (score_one model w) (set_LAST_PREDICT_TIME (time_now w) st).
Proof.
  intros Hm [_ Hle]. rewrite maybe_predict_and_act_eq, Hm.
  now rewrite Hle.
Qed.

(** What a predict attempt leaves behind, whatever the model does. *)
Lemma maybe_predict_and_act_frame (w : World) (ns : list Neighbor) (st : State) :
  exists new,
    fst (maybe_predict_and_act w ns st)
    = emit_all new
        (if dueb w st then set_LAST_PREDICT_TIME (time_now w) st else st)
    /\ sleeps new = 0%nat.
Proof.
  destruct (dueb w st) eqn:Hdue.
  - apply dueb_due in Hdue. destruct (Hdue) as [[model Hm] _].
    rewrite (due_scores _ _ _ _ Hm Hdue). apply score_loop_frame.
  - rewrite not_due_skips.
    + exists []. cbn. now rewrite emit_all_nil.
    + intros Hd. apply dueb_due in Hd. congruence.
Qed.

Lemma last_after_attempt (w : World) (ns : list Neighbor) (st : State) :
  LAST_PREDICT_TIME (fst (maybe_predict_and_act w ns st))
  = if dueb w st then time_now w else LAST_PREDICT_TIME st.
Proof.
  destruct (maybe_predict_and_act_frame w ns st) as (new & -> & _).
  now destruct (dueb w st).
Qed.

Lemma model_after_attempt (w : World) (ns : list Neighbor) (st : State) :
  MODEL (fst (maybe_predict_and_act w ns st)) = MODEL st.
Proof.
  destruct (maybe_predict_and_act_frame w ns st) as (new & -> & _).
  now destruct (dueb w st).
Qed.

(** Scoring passes lie a predict interval apart. *)
Lemma scoring_times_spaced (calls : list (World * list Neighbor)) (st : State) :
  spaced_after (LAST_PREDICT_TIME st) (scoring_times calls st).
Proof.
  revert st. induction calls as [|[w ns] calls IH]; intros st; [exact I|].
  cbn [scoring_times].
  pose proof (IH (fst (maybe_predict_and_act w ns st))) as Hrest.
  rewrite last_after_attempt in Hrest.
  destruct (dueb w st) eqn:Hdue.
  - cbn [spaced_after]. split; [|exact Hrest].
    now apply dueb_due in Hdue as [_ Hle].
  - exact Hrest.
Qed.

Lemma predicted_score_events (scored : list (Neighbor * float)) :
  omap predicted (score_events scored)
  = (fun '(n, p) => (neighbor n, p)) <$> scored.
Proof.
  induction scored as [|[n p] scored IH]; [reflexivity|].
  cbn [score_events flat_map]. change (flat_map _ scored) with (score_events scored).
  destruct (PREDICTION_THRESHOLD <=? p)%float; cbn; now rewrite IH.
Qed.

Lemma acted_score_events (scored : list (Neighbor * float)) :
  omap acted (score_events scored)
  = (fun '(n, p) => (neighbor n, p)) <$>
      List.filter (fun '(n, p) => (PREDICTION_THRESHOLD <=? p)%float) scored.
Proof.
  induction scored as [|[n p] scored IH]; [reflexivity|].
  cbn [score_events flat_map List.filter].
  change (flat_map _ scored) with (score_events scored).
  destruct (PREDICTION_THRESHOLD <=? p)%float; cbn; now rewrite IH.
Qed.

(** The intended actions of a scoring pass are those of the neighbors whose
    score reaches the threshold. *)
Lemma in_score_events (who : string) (p : float)
      (scored : list (Neighbor * float)) :
  In (Action who p) (score_events scored)
  <-> exists n, In (n, p) scored /\ neighbor n = who
                /\ (PREDICTION_THRESHOLD <=? p)%float = true.
Proof.
  induction scored as [|[n' p'] scored IH].
  - split; [intros [] | intros (n & [] & _)].
  - cbn [score_events flat_map].
    change (flat_map _ scored) with (score_events scored).
    split.
    + intros [Hbad | Hin]; [discriminate|].
      apply in_app_or in Hin as [Hin|Hin].
      * destruct (PREDICTION_THRESHOLD <=? p')%float eqn:Hthr; [|destruct Hin].
        destruct Hin as [[= <- <-]|[]].
        exists n'. split; [now left | now split].
      * apply IH in Hin as (n0 & Hin & Hid & Hthr).
        exists n0. split; [now right | now split].
    + intros (n0 & [[= -> ->] | Hin] & Hid & Hthr).
      * right. apply in_or_app. left. rewrite Hthr. left. now rewrite Hid.
      * right. apply in_or_app. right. apply IH. eauto.
Qed.

(** ** The main loop *)

Lemma sleeps_app (evs evs' : list Event) :
  sleeps (evs ++ evs') = (sleeps evs + sleeps evs')%nat.
Proof. unfold sleeps. now rewrite List.filter_app, length_app. Qed.

(** [tick] unfolded along its three steps. *)
Lemma tick_eq (w : World) (st : State) :
  tick w st
  = match parse_batman_originators (originators w) with
    | inl e => (st, inl e)
    | inr ns =>
        match log_metrics w ns (emit (InfoFound (length ns)) st) with
        | (st1, inl e) => (st1, inl e)
        | (st1, inr _) => maybe_predict_and_act w ns st1
        end
    end.
Proof.
  unfold tick, mbind, M_bind, lift, print, modify.
  destruct (parse_batman_originators (originators w)); reflexivity.
Qed.

(** A tick, failed or not, adds lines to the output and no call of
    [sleep]. *)
Lemma tick_output (w : World) (st : State) :
  exists new,
    stdout (fst (tick w st)) = (stdout st ++ new)%list /\ sleeps new = 0%nat.
Proof.
  rewrite tick_eq.
  destruct (parse_batman_originators (originators w)) as [e|ns].
  - exists []. cbn. now rewrite app_nil_r.
  - pose proof (log_metrics_frame w ns (emit (InfoFound (length ns)) st))
      as (_ & _ & Hout).
    destruct (log_metrics w ns (emit (InfoFound (length ns)) st))
      as [st1 [e|[]]]; cbn [fst] in Hout.
    + exists [InfoFound (length ns)]. cbn [fst]. now rewrite Hout.
    + destruct (maybe_predict_and_act_frame w ns st1) as (new & -> & Hsl).
      exists (InfoFound (length ns) :: new). split; [|exact Hsl].
      assert (stdout (if dueb w st1
                      then set_LAST_PREDICT_TIME (time_now w) st1 else st1)
              = stdout st1) as Hsame by now destruct (dueb w st1).
      cbn [emit_all stdout]. rewrite Hsame, Hout. cbn.
      now rewrite <- app_assoc.
Qed.

(** Every iteration ends in its sleep. *)
Lemma iteration_sleeps (w : World) (st : State) :
  sleeps (stdout (iteration w st)) = S (sleeps (stdout st)).
Proof.
  unfold iteration.
  destruct (tick_output w st) as (new & Hout & Hsl).
  destruct (tick w st) as [st' [e|u]]; cbn [fst] in Hout; cbn [emit stdout];
    rewrite Hout, !sleeps_app, Hsl; cbn; lia.
Qed.

(** The loop runs all its iterations: it sleeps once for each of them. *)
Lemma main_loop_sleeps (ws : list World) (st : State) :
  sleeps (stdout (main_loop ws st)) = (sleeps (stdout st) + length ws)%nat.
Proof.
  revert st. induction ws as [|w ws IH]; intros st; cbn [main_loop length].
  - lia.
  - rewrite IH, iteration_sleeps. lia.
Qed.

(** [main] ends with an exception only when loading the model raises it, and
    then before the first iteration. *)
Lemma main_raises_only_at_startup (artifact : option (exn + Model))
      (ws : list World) (st st' : State) (e : exn) :
  main artifact ws st = (st', inl e) ->
  artifact = Some (inl e) /\ st' = emit InfoStarting st.
Proof.
  unfold main, load_model, mbind, M_bind, print, modify, lift.
  destruct artifact as [[e0|model]|]; cbn.
  - now intros [= <- <-].
  - discriminate.
  - discriminate.
Qed.

(** The time of the last scoring pass over one iteration: it stays, or it
    becomes the clock reading of an attempt that was due. *)
Lemma iteration_last (w : World) (st : State) :
  LAST_PREDICT_TIME (iteration w st) = LAST_PREDICT_TIME st
  \/ (LAST_PREDICT_TIME (iteration w st) = time_now w /\ due w st).
Proof.
  assert (Hit : LAST_PREDICT_TIME (iteration w st)
                = LAST_PREDICT_TIME (fst (tick w st)))
    by (unfold iteration; now destruct (tick w st) as [st' [e|u]]).
  rewrite Hit, tick_eq.
  destruct (parse_batman_originators (originators w)) as [e|ns];
    [now left|].
  pose proof (log_metrics_frame w ns (emit (InfoFound (length ns)) st))
    as (Hm & Hl & _).
  destruct (log_metrics w ns (emit (InfoFound (length ns)) st))
    as [st1 [e|[]]]; cbn [fst] in Hm, Hl; [now left|].
  rewrite last_after_attempt.
  destruct (dueb w st1) eqn:Hdue; [right | now left].
  split; [reflexivity|].
  apply dueb_due in Hdue as [Hmodel Hle].
  rewrite Hm in Hmodel. rewrite Hl in Hle. split; [exact Hmodel | exact Hle].
Qed.

(** An iteration whose read or whose append fails does not reach the predict
    step: it reports no score and leaves the time of the last pass. *)
Lemma iteration_without_attempt (w : World) (st : State) :
  (forall ns,
      parse_batman_originators (originators w) = inr ns ->
      exists e,
        snd (log_metrics w ns (emit (InfoFound (length ns)) st)) = inl e) ->
  omap predicted (stdout (iteration w st)) = omap predicted (stdout st)
  /\ LAST_PREDICT_TIME (iteration w st) = LAST_PREDICT_TIME st.
Proof.
  intros Hfails. unfold iteration. rewrite tick_eq.
  destruct (parse_batman_originators (originators w)) as [e|ns].
  - cbn. rewrite !omap_app. cbn. now rewrite !app_nil_r.
  - destruct (Hfails ns eq_refl) as [e He].
    pose proof (log_metrics_frame w ns (emit (InfoFound (length ns)) st))
      as (_ & Hl & Hout).
    destruct (log_metrics w ns (emit (InfoFound (length ns)) st))
      as [st1 [e1|[]]]; cbn [fst snd] in *; [|discriminate].
    cbn [emit stdout LAST_PREDICT_TIME]. rewrite Hout, Hl.
    cbn [emit stdout LAST_PREDICT_TIME].
    rewrite !omap_app. cbn. now rewrite !app_nil_r.
Qed.

(** * The claims *)

(** C1. When a tick raises, whatever the step and the exception, the handler
    writes the error to the output and the loop sleeps and goes on to its next
    iteration: it sleeps once for every iteration whatever fails, and [main]
    ends with an exception only when loading the model raises at start-up.
    The steps after the failing one are skipped: after a failed read the
    state is untouched; after a failed append the model, the time of the last
    scoring pass and the output, but for the count of neighbors, are as
    before; a failure of the predict step is the last thing of the tick. *)
Theorem tick_failure_is_caught (w : World) (st st' : State) (e : exn) :
  tick w st = (st', inl e) ->
  iteration w st = emit (Sleep POLL_INTERVAL_SEC) (emit (Error e) st')
  /\ (forall ws,
         main_loop (w :: ws) st
         = main_loop ws (emit (Sleep POLL_INTERVAL_SEC) (emit (Error e) st')))
  /\ (forall ws st0,
         sleeps (stdout (main_loop ws st0))
         = (sleeps (stdout st0) + length ws)%nat)
  /\ (forall artifact ws st0 st1 e0,
         main artifact ws st0 = (st1, inl e0) -> artifact = Some (inl e0))
  /\ ((parse_batman_originators (originators w) = inl e /\ st' = st)
      \/ (exists ns,
             parse_batman_originators (originators w) = inr ns
             /\ log_metrics w ns (emit (InfoFound (length ns)) st)
                = (st', inl e)
             /\ MODEL st' = MODEL st
             /\ LAST_PREDICT_TIME st' = LAST_PREDICT_TIME st
             /\ stdout st' = (stdout st ++ [InfoFound (length ns)])%list)
      \/ (exists ns st1,
             parse_batman_originators (originators w) = inr ns
             /\ log_metrics w ns (emit (InfoFound (length ns)) st)
                = (st1, inr tt)
             /\ maybe_predict_and_act w ns st1 = (st', inl e))).
Proof.
  intros Htick.
  assert (Hiter : iteration w st
                  = emit (Sleep POLL_INTERVAL_SEC) (emit (Error e) st'))
    by (unfold iteration; now rewrite Htick).
  split; [exact Hiter|].
  split; [intros ws; cbn [main_loop]; now rewrite Hiter|].
  split; [exact main_loop_sleeps|].
  split; [intros artifact ws st0 st1 e0 Hmain;
          exact (proj1 (main_raises_only_at_startup _ _ _ _ _ Hmain))|].
  rewrite tick_eq in Htick.
  destruct (parse_batman_originators (originators w)) as [e0|ns].
  - left. now injection Htick as -> ->.
  - right.
    pose proof (log_metrics_frame w ns (emit (InfoFound (length ns)) st))
      as (Hm & Hl & Hout).
    destruct (log_metrics w ns (emit (InfoFound (length ns)) st))
      as [st1 [e1|[]]] eqn:Hlog; cbn [fst] in Hm, Hl, Hout.
    + left. injection Htick as -> ->. exists ns.
      repeat split; [exact Hlog | exact Hm | exact Hl | exact Hout].
    + right. exists ns, st1. repeat split; [exact Hlog | exact Htick].
Qed.

Lemma tick_failure_is_caught_witness :
  let w := Sample.world Missing Sample.day1 100 None in
  iteration w Sample.loaded
  = emit (Sleep POLL_INTERVAL_SEC)
      (emit (Error (FileNotFoundError BAT_ORIGINATORS_PATH)) Sample.loaded)
  /\ stdout (iteration w Sample.loaded)
     = [Error (FileNotFoundError BAT_ORIGINATORS_PATH); Sleep 2].
Proof.
  intros w.
  destruct (tick_failure_is_caught w Sample.loaded Sample.loaded
              (FileNotFoundError BAT_ORIGINATORS_PATH) eq_refl)
    as (Hiter & _).
  split; [exact Hiter|]. rewrite Hiter. reflexivity.
Defined.

(** C2, as the claim states it, fails twice.  A poll tick with a model
    loaded and the interval long past scores nothing when its append to the
    metric log fails: the predict step is not reached.  And two attempts one
    second apart score not once but never, when the first of them comes
    before the interval has gone by: here at clock readings 1 and 2 of a
    process that starts with 0.0 as the time of its last pass. *)
Lemma due_tick_may_score_nothing :
  let w := Sample.world (Readable Sample.table) Sample.day1 100
             (Some (WriteFails 2 "no space left on device")) in
  let w1 := Sample.world (Readable Sample.table) Sample.day1 1 None in
  let w2 := Sample.world (Readable Sample.table) Sample.day1 2 None in
  (is_Some (MODEL Sample.loaded)
   /\ interval_elapsed (time_now w) (LAST_PREDICT_TIME Sample.loaded) = true
   /\ parse_batman_originators (originators w)
      = inr [Sample.weak; Sample.strong]
   /\ stdout (iteration w Sample.loaded)
      = [InfoFound 2; Error (OSError "no space left on device"); Sleep 2]
   /\ LAST_PREDICT_TIME (iteration w Sample.loaded) = 0%float)
  /\ ((time_now w2 - time_now w1)%float = 1%float
      /\ scoring_times [(w1, [Sample.weak]); (w2, [Sample.weak])] Sample.loaded
         = []).
Proof.
  split; [split; [now exists Sample.model|]|];
    repeat split; vm_compute; reflexivity.
Qed.

(** C2, amended. A predict attempt scores exactly when it is due: a model
    is loaded and the test [now - LAST_PREDICT_TIME < PREDICT_INTERVAL_SEC],
    on binary64 numbers, fails, which it does when the computed difference is
    at least the interval or is no number.  A due attempt records the reading
    and, the model answering, scores every neighbor in order; any other
    attempt does nothing.  So the scoring passes of any sequence of attempts
    each pass the test against the pass before, and of two attempts whose
    readings differ by one second at most one scores: the first, when it is
    due.  A tick makes one such attempt, on the neighbors it read, when its
    read and its append succeed, and none when one of them fails; over an
    iteration of the main loop the recorded time stays or moves to the
    reading of an attempt that was due. *)
Theorem predict_at_most_once_per_interval :
  (forall w st,
      due w st
      <-> is_Some (MODEL st)
          /\ (interval_elapsed (time_now w) (LAST_PREDICT_TIME st) = true
              \/ not_a_number (time_now w - LAST_PREDICT_TIME st)%float
                 = true))
  /\ (forall w st, dueb w st = true <-> due w st)
  /\ (forall w ns st,
         due w st ->
         LAST_PREDICT_TIME (fst (maybe_predict_and_act w ns st)) = time_now w
         /\ forall model probs,
              MODEL st = Some model ->
              Forall2 (fun n p => model (features_of w n) = inr p) ns probs ->
              maybe_predict_and_act w ns st
              = (emit_all (score_events (zip ns probs))
                   (set_LAST_PREDICT_TIME (time_now w) st), inr tt)
              /\ omap predicted (score_events (zip ns probs))
                 = (fun '(n, p) => (neighbor n, p)) <$> zip ns probs)
  /\ (forall w ns st,
         ~ due w st -> maybe_predict_and_act w ns st = (st, inr tt))
  /\ (forall calls st,
         spaced_after (LAST_PREDICT_TIME st) (scoring_times calls st))
  /\ (forall w1 w2 ns1 ns2 st,
         (time_now w2 - time_now w1)%float = 1%float ->
         (length (scoring_times [(w1, ns1); (w2, ns2)] st) <= 1)%nat
         /\ (due w1 st ->
             scoring_times [(w1, ns1); (w2, ns2)] st = [time_now w1]))
  /\ (forall w st ns st1,
         parse_batman_originators (originators w) = inr ns ->
         log_metrics w ns (emit (InfoFound (length ns)) st) = (st1, inr tt) ->
         tick w st = maybe_predict_and_act w ns st1)
  /\ (forall w st,
         (forall ns,
             parse_batman_originators (originators w) = inr ns ->
             exists e,
               snd (log_metrics w ns (emit (InfoFound (length ns)) st))
               = inl e) ->
         omap predicted (stdout (iteration w st)) = omap predicted (stdout st)
         /\ LAST_PREDICT_TIME (iteration w st) = LAST_PREDICT_TIME st)
  /\ (forall w st,
         LAST_PREDICT_TIME (iteration w st) = LAST_PREDICT_TIME st
         \/ (LAST_PREDICT_TIME (iteration w st) = time_now w /\ due w st)).
Proof.
  split; [intros w st; unfold due; now rewrite too_soon_false|].
  split; [exact dueb_due|].
  split; [|split; [exact not_due_skips|split; [exact scoring_times_spaced|]]].
  2: split; [|split; [|split; [exact iteration_without_attempt
                              |exact iteration_last]]].
  - intros w ns st Hdue. split.
    + rewrite last_after_attempt.
      now rewrite (proj2 (dueb_due w st) Hdue).
    + intros model probs Hm Hp.
      rewrite (due_scores _ _ _ _ Hm Hdue), (score_pass _ _ _ _ _ Hp).
      split; [reflexivity | apply predicted_score_events].
  - intros w1 w2 ns1 ns2 st Hlater.
    cbn [scoring_times].
    destruct (dueb w1 st) eqn:Hdue1.
    + assert (Hnot : dueb w2 (fst (maybe_predict_and_act w1 ns1 st)) = false).
      { unfold dueb. rewrite model_after_attempt, last_after_attempt, Hdue1.
        destruct (MODEL st); [|reflexivity].
        unfold too_soon. rewrite Hlater. reflexivity. }
      rewrite Hnot. split; [cbn; lia | reflexivity].
    + split.
      * destruct (dueb w2 _); cbn; lia.
      * intros Hdue. apply dueb_due in Hdue. congruence.
  - intros w st ns st1 Hread Hlog. now rewrite tick_eq, Hread, Hlog.
Qed.

Lemma predict_at_most_once_per_interval_witness :
  let w1 := Sample.world (Readable Sample.table) Sample.day1 100 None in
  let w2 := Sample.world (Readable Sample.table) Sample.day1 101 None in
  let w3 := Sample.world (Readable Sample.table) Sample.day1 5.3 None in
  scoring_times [(w1, [Sample.weak]); (w2, [Sample.weak])] Sample.loaded
  = [100%float]
  /\ due w3 (set_LAST_PREDICT_TIME 0.3 Sample.loaded).
Proof.
  intros w1 w2 w3.
  destruct predict_at_most_once_per_interval
    as (_ & Hdue & _ & _ & _ & Hpair & _).
  split.
  - apply (Hpair w1 w2 [Sample.weak] [Sample.weak] Sample.loaded).
    + reflexivity.
    + split; [now exists Sample.model | reflexivity].
  - apply Hdue. reflexivity.
Defined.

(** C3, as the claim states it, fails against the line format of the
    specification, in which a data line holds an identifier, a token
    [TQ:<int 0-255>] and a token [(<int>], other tokens being ignored.  The
    reader keeps lines that are malformed by it, with a link quality of 300 or
    of -5; and it drops a line that is well formed by it, when a token that
    opens with a parenthesis and is no number comes before the last-seen
    token. *)
Lemma reader_departs_from_line_format :
  (spec_format "aa:bb:cc:dd:ee:ff   0.340s   TQ:300 (340" = false
   /\ parse_line "aa:bb:cc:dd:ee:ff   0.340s   TQ:300 (340"
      = Some {| neighbor := "aa:bb:cc:dd:ee:ff"; last_seen_ms := 340;
                tq := 300; hop_count := 1 |})
  /\ (spec_format "aa:bb:cc:dd:ee:ff   0.340s   TQ:-5 (340" = false
      /\ parse_line "aa:bb:cc:dd:ee:ff   0.340s   TQ:-5 (340"
         = Some {| neighbor := "aa:bb:cc:dd:ee:ff"; last_seen_ms := 340;
                   tq := -5; hop_count := 1 |})
  /\ (spec_format "aa:bb:cc:dd:ee:ff (best) TQ:200 (340" = true
      /\ parse_line "aa:bb:cc:dd:ee:ff (best) TQ:200 (340" = None)
  /\ parse_batman_originators
       (Readable ["aa:bb:cc:dd:ee:ff   0.340s   TQ:300 (340";
                  "11:22:33:44:55:66 (best) TQ:200 (120"])
     = inr [{| neighbor := "aa:bb:cc:dd:ee:ff"; last_seen_ms := 340;
               tq := 300; hop_count := 1 |}].
Proof. repeat split; vm_compute; reflexivity. Qed.

(** C3, amended. The read fails exactly when the source is missing or
    unreadable.  On a readable source it returns, in order, one record for
    each line that parses and nothing for any other line, without failing.
    A line without a token that starts with [TQ:], or without one that starts
    with an opening parenthesis, is dropped.  A line gives a record when it is
    no header, its first token that starts with [TQ:] is [TQ:<digits>] and
    its first token that starts with an opening parenthesis is [(<digits>],
    with no more digits than [int] reads; the record holds the first token
    and the two numbers, whatever their size.  Every line that gives a record
    holds a token of each of the two kinds.  A file with one line in that
    format and one line without [TQ:] gives exactly one record. *)
Theorem read_fails_only_when_unavailable :
  (forall src,
      (exists e, parse_batman_originators src = inl e) <-> unavailable src)
  /\ (forall lines,
         parse_batman_originators (Readable lines)
         = inr (omap parse_line lines)
         /\ length (omap parse_line lines) = length (kept lines))
  /\ (forall line,
         Forall (fun p => PyStr.startswith "TQ:" p = false)
                (PyStr.split (PyStr.strip PyStr.is_space line)) ->
         parse_line line = None)
  /\ (forall line,
         Forall (fun p => PyStr.startswith "(" p = false)
                (PyStr.split (PyStr.strip PyStr.is_space line)) ->
         parse_line line = None)
  /\ (forall line n, documented line n -> parse_line line = Some n)
  /\ (forall line n,
         parse_line line = Some n ->
         let text := PyStr.strip PyStr.is_space line in
         PyStr.startswith "Originator" text = false
         /\ head (PyStr.split text) = Some (neighbor n)
         /\ hop_count n = 1
         /\ Exists (fun p => PyStr.startswith "TQ:" p = true)
                   (PyStr.split text)
         /\ Exists (fun p => PyStr.startswith "(" p = true)
                   (PyStr.split text))
  /\ parse_batman_originators
       (Readable ["aa:bb:cc:dd:ee:ff   0.340s   TQ:200 (340";
                  "11:22:33:44:55:66   0.120s   (120"])
     = inr [{| neighbor := "aa:bb:cc:dd:ee:ff"; last_seen_ms := 340;
               tq := 200; hop_count := 1 |}].
Proof.
  split; [|split; [|split; [|split; [|split; [|split]]]]].
  - intros src. unfold unavailable. split.
    + intros [e He]. destruct src; simpl in He; eauto. discriminate.
    + intros [-> | [what ->]]; simpl; eauto.
  - intros lines. split; [|apply length_omap_kept].
    simpl. now rewrite parse_lines_omap.
  - apply parse_line_without_tq.
  - apply parse_line_without_paren.
  - intros line n H. now apply parse_line_well_formed, documented_well_formed.
  - apply parse_line_needs.
  - vm_compute. reflexivity.
Qed.

(** C4. For every integer link quality, the signal strength plus twice the
    packet loss is the float 1, exactly: no rounding error is left. *)
Theorem signal_plus_twice_loss_is_one (link_quality : Z) :
  (estimate_signal_strength link_quality
   + 2 * estimate_packet_loss link_quality)%float = 1%float.
Proof.
  unfold estimate_signal_strength, estimate_packet_loss.
  apply complementary_clamped. lia.
Qed.

(** C5. An append that meets no fault writes to the file of the UTC date of
    its clock reading, and to no other file, one data row for each record, in
    order, each ending in a [will_fail] of 0; before them it writes the
    header exactly when that file did not exist.  So such an append keeps the
    header single in every file that holds it once, and appends on two
    different dates to a directory that has neither file leave two files,
    each with one header. *)
Theorem metric_log_rows_and_headers :
  (forall w ns st,
      log_fault w = None ->
      let d := dt_date (utcnow_path w) in
      exists st',
        log_metrics w ns st = (st', inr tt)
        /\ log_files st' !! d
           = Some (default [] (log_files st !! d)
                   ++ (if decide (is_Some (log_files st !! d))
                       then [] else [header_row])
                   ++ (data_row w <$> ns))%list
        /\ (forall d', d' <> d -> log_files st' !! d' = log_files st !! d')
        /\ length (data_row w <$> ns) = length ns
        /\ Forall (fun r => last r = Some (CInt 0) /\ is_header r = false)
                  (data_row w <$> ns)
        /\ (headers_once (log_files st) -> headers_once (log_files st')))
  /\ (forall w1 w2 ns1 ns2 st,
         log_fault w1 = None -> log_fault w2 = None ->
         let d1 := dt_date (utcnow_path w1) in
         let d2 := dt_date (utcnow_path w2) in
         d1 <> d2 ->
         log_files st !! d1 = None -> log_files st !! d2 = None ->
         exists st1 st2 rows1 rows2,
           log_metrics w1 ns1 st = (st1, inr tt)
           /\ log_metrics w2 ns2 st1 = (st2, inr tt)
           /\ log_files st2 !! d1 = Some rows1
           /\ log_files st2 !! d2 = Some rows2
           /\ header_count rows1 = 1%nat
           /\ header_count rows2 = 1%nat)
  /\ (forall r, is_header r = true <-> r = header_row).
Proof.
  split; [|split; [|exact is_header_iff]].
  - intros w ns st Hfault d.
    eexists. split; [apply (log_metrics_ok _ _ _ Hfault)|].
    cbn [log_files set_log_files set_log_dir]. fold d.
    split; [|split; [|split; [|split]]].
    + rewrite lookup_insert_eq.
      destruct (log_files st !! d) as [rows|]; cbn; [|reflexivity].
      rewrite decide_True by eauto. reflexivity.
    + intros d' Hne. now rewrite lookup_insert_ne.
    + apply length_fmap.
    + apply Forall_fmap, Forall_true. intros n. now split.
    + intros Hinv.
      pose proof (log_metrics_headers_once w ns st Hfault Hinv) as H.
      now rewrite (log_metrics_ok _ _ _ Hfault) in H.
  - intros w1 w2 ns1 ns2 st Hf1 Hf2 d1 d2 Hne H1 H2.
    do 4 eexists.
    split; [apply (log_metrics_ok _ _ _ Hf1)|].
    split; [apply (log_metrics_ok _ _ _ Hf2)|].
    cbn [log_files set_log_files set_log_dir]. fold d1 d2.
    rewrite H1.
    rewrite (lookup_insert_ne _ d1 d2) by exact Hne. rewrite H2.
    rewrite lookup_insert_ne by congruence.
    rewrite !lookup_insert_eq.
    split; [reflexivity|]. split; [reflexivity|].
    change (header_row :: (data_row w1 <$> ns1))
      with ([header_row] ++ (data_row w1 <$> ns1))%list.
    change (header_row :: (data_row w2 <$> ns2))
      with ([header_row] ++ (data_row w2 <$> ns2))%list.
    now rewrite !header_count_app, !header_count_data.
Qed.

Lemma metric_log_rows_and_headers_witness :
  let w1 := Sample.world Missing Sample.day1 100 None in
  let w2 := Sample.world Missing Sample.day2 86500 None in
  let st := initial false ∅ in
  (exists st',
      log_metrics w1 [Sample.weak; Sample.strong] st = (st', inr tt)
      /\ log_files st' !! Sample.day1
         = Some [header_row; data_row w1 Sample.weak;
                 data_row w1 Sample.strong])
  /\ (exists st1 st2 rows1 rows2,
         log_metrics w1 [Sample.weak] st = (st1, inr tt)
         /\ log_metrics w2 [Sample.strong] st1 = (st2, inr tt)
         /\ log_files st2 !! Sample.day1 = Some rows1
         /\ log_files st2 !! Sample.day2 = Some rows2
         /\ header_count rows1 = 1%nat
         /\ header_count rows2 = 1%nat).
Proof.
  intros w1 w2 st. split.
  - destruct (proj1 metric_log_rows_and_headers w1
                [Sample.weak; Sample.strong] st eq_refl)
      as (st' & Hrun & Hfile & _).
    exists st'. split; [exact Hrun | exact Hfile].
  - apply (proj1 (proj2 metric_log_rows_and_headers) w1 w2
             [Sample.weak] [Sample.strong] st eq_refl eq_refl);
      [discriminate | reflexivity | reflexivity].
Defined.

(** C6, as the claim states it, fails: an override of 150 is returned as it
    is, and 150 is no percentage. *)
Lemma battery_override_out_of_range :
  get_battery_pct (Some "150") = 150%float
  /\ in_percent_range (get_battery_pct (Some "150")) = false.
Proof. split; vm_compute; reflexivity. Qed.

(** C6, amended. [get_battery_pct] is total; it returns the override whenever
    [float] reads it, whatever its value, and 80.0 when the variable is
    unset, empty or unreadable as a number; so its result is a percentage
    exactly when the fallback is taken or the override is one itself.  Of
    what [float] reads and does not read: an override of decimal digits is
    returned as the number it writes, which up to 1000 is a percentage
    exactly when it is at most 100; an override that holds a character no
    number text holds gives 80.0. *)
Theorem get_battery_pct_override_or_default :
  (forall env_val,
      get_battery_pct env_val =
        match env_val with
        | Some v => match PyNum.float v with inr x => x | inl _ => 80%float end
        | None => 80%float
        end
      /\ in_percent_range (get_battery_pct env_val) =
           match env_val with
           | Some v => match PyNum.float v with
                       | inr x => in_percent_range x
                       | inl _ => true
                       end
           | None => true
           end)
  /\ (forall d,
         digit_text d = true ->
         get_battery_pct (Some d) = PyNum.float_of_int (number_of 0 d))
  /\ (forall n,
         0 <= n <= 1000 ->
         in_percent_range (PyNum.float_of_int n) = (n <=? 100)%Z)
  /\ (forall v,
         has_char (fun c => negb (float_char c)) v = true ->
         get_battery_pct (Some v) = 80%float)
  /\ get_battery_pct None = 80%float
  /\ get_battery_pct (Some "") = 80%float.
Proof.
  assert (E : forall env_val,
             get_battery_pct env_val =
             match env_val with
             | Some v =>
                 match PyNum.float v with inr x => x | inl _ => 80%float end
             | None => 80%float
             end).
  { intros [[|c v]|]; reflexivity. }
  split; [|split; [|split; [exact whole_percentage|split; [|split]]]].
  - intros env_val. split; [apply E|].
    rewrite E. destruct env_val as [v|]; [|reflexivity].
    destruct (PyNum.float v); reflexivity.
  - intros d Hd. now rewrite E, (float_digits d Hd).
  - intros v Hv. now rewrite E, (float_rejects v Hv).
  - reflexivity.
  - reflexivity.
Qed.

Lemma get_battery_pct_override_or_default_witness :
  get_battery_pct (Some "42") = 42%float
  /\ get_battery_pct (Some "4 2") = 80%float
  /\ get_battery_pct (Some "about 40") = 80%float.
Proof.
  destruct get_battery_pct_override_or_default
    as (_ & Hdigits & _ & Hbad & _).
  split; [|split].
  - etransitivity; [apply (Hdigits "42"); reflexivity | reflexivity].
  - reflexivity.
  - apply (Hbad "about 40"). reflexivity.
Defined.

(** C7, as the claim states it, fails: the reader does not merge lines, so a
    table that lists one originator twice gives two records with one
    identifier. *)
Lemma repeated_originator_repeats_id :
  parse_batman_originators
    (Readable ["aa:bb:cc:dd:ee:ff TQ:200 (340";
               "aa:bb:cc:dd:ee:ff TQ:180 (20"])
  = inr [{| neighbor := "aa:bb:cc:dd:ee:ff"; last_seen_ms := 340;
            tq := 200; hop_count := 1 |};
         {| neighbor := "aa:bb:cc:dd:ee:ff"; last_seen_ms := 20;
            tq := 180; hop_count := 1 |}]
  /\ ~ NoDup (neighbor <$>
                [{| neighbor := "aa:bb:cc:dd:ee:ff"; last_seen_ms := 340;
                    tq := 200; hop_count := 1 |};
                 {| neighbor := "aa:bb:cc:dd:ee:ff"; last_seen_ms := 20;
                    tq := 180; hop_count := 1 |}]).
Proof.
  split; [vm_compute; reflexivity|].
  simpl. intros H. apply NoDup_cons in H as [Hin _].
  apply Hin. left.
Qed.

(** C7, amended. The identifiers a successful read returns are the first
    tokens of the lines it kept, in file order; they are pairwise distinct
    exactly when those first tokens are. *)
Theorem neighbor_ids_follow_lines (lines : list string) (rs : list Neighbor) :
  parse_batman_originators (Readable lines) = inr rs ->
  neighbor <$> rs = omap line_id (kept lines)
  /\ (NoDup (neighbor <$> rs) <-> NoDup (omap line_id (kept lines))).
Proof.
  simpl. rewrite parse_lines_omap. intros [= <-].
  rewrite neighbors_of_kept. split; [reflexivity | tauto].
Qed.

Lemma neighbor_ids_follow_lines_witness :
  let lines := ["Originator  last-seen";
                "aa:bb:cc:dd:ee:ff TQ:200 (340";
                "no link quality here";
                "11:22:33:44:55:66 TQ:90 (15"] in
  let rs := [{| neighbor := "aa:bb:cc:dd:ee:ff"; last_seen_ms := 340;
                tq := 200; hop_count := 1 |};
             {| neighbor := "11:22:33:44:55:66"; last_seen_ms := 15;
                tq := 90; hop_count := 1 |}] in
  neighbor <$> rs = omap line_id (kept lines)
  /\ (NoDup (neighbor <$> rs) <-> NoDup (omap line_id (kept lines))).
Proof.
  intros lines rs.
  apply (neighbor_ids_follow_lines lines rs).
  vm_compute. reflexivity.
Defined.

(** C8, as the claim states it, fails: with a model loaded and a scoring pass
    due, a tick whose append fails scores nothing.  Run on its own, the
    predict step of that tick scores both neighbors; the iteration writes the
    count, the error and nothing more, and leaves the time of the last pass
    at its start value. *)
Lemma log_failure_skips_due_prediction :
  let w := Sample.world (Readable Sample.table) Sample.day1 100
             (Some (MkdirFails "read-only file system")) in
  let ns := [Sample.weak; Sample.strong] in
  parse_batman_originators (originators w) = inr ns
  /\ snd (log_metrics w ns (emit (InfoFound 2) Sample.loaded))
     = inl (OSError "read-only file system")
  /\ dueb w Sample.loaded = true
  /\ omap predicted
       (stdout (fst (maybe_predict_and_act w ns Sample.loaded)))
     = [("aa:bb:cc:dd:ee:ff", 0.85%float); ("11:22:33:44:55:66", 0.3%float)]
  /\ stdout (iteration w Sample.loaded)
     = [InfoFound 2; Error (OSError "read-only file system"); Sleep 2]
  /\ LAST_PREDICT_TIME (iteration w Sample.loaded) = 0%float.
Proof. repeat split; vm_compute; reflexivity. Qed.

(** C8, amended. When the append to the metric log fails, the handler of the
    loop catches the exception and writes it to the output; the predict step
    of that tick is not run, so nothing is scored and the time of the last
    scoring pass stays; the loop sleeps and goes on to its next iteration. *)
Theorem log_failure_ends_the_tick (w : World) (st st1 : State)
        (ns : list Neighbor) (e : exn) :
  parse_batman_originators (originators w) = inr ns ->
  log_metrics w ns (emit (InfoFound (length ns)) st) = (st1, inl e) ->
  iteration w st = emit (Sleep POLL_INTERVAL_SEC) (emit (Error e) st1)
  /\ LAST_PREDICT_TIME (iteration w st) = LAST_PREDICT_TIME st
  /\ stdout (iteration w st)
     = (stdout st
        ++ [InfoFound (length ns); Error e; Sleep POLL_INTERVAL_SEC])%list
  /\ (forall ws,
         main_loop (w :: ws) st = main_loop ws (iteration w st)
         /\ sleeps (stdout (main_loop (w :: ws) st))
            = (sleeps (stdout st) + 1 + length ws)%nat).
Proof.
  intros Hread Hlog.
  pose proof (log_metrics_frame w ns (emit (InfoFound (length ns)) st))
    as (_ & Hl & Hout).
  rewrite Hlog in Hl, Hout. cbn [fst] in Hl, Hout.
  assert (Hiter : iteration w st
                  = emit (Sleep POLL_INTERVAL_SEC) (emit (Error e) st1)).
  { unfold iteration. now rewrite tick_eq, Hread, Hlog. }
  split; [exact Hiter|].
  split; [now rewrite Hiter|].
  split.
  - rewrite Hiter. cbn [emit stdout]. rewrite Hout. cbn [emit stdout].
    now rewrite <- !app_assoc.
  - intros ws. split; [reflexivity|].
    rewrite main_loop_sleeps. cbn [length]. lia.
Qed.

Lemma log_failure_ends_the_tick_witness :
  let w := Sample.world (Readable Sample.table) Sample.day2 100
             (Some (OpenFails "permission denied")) in
  stdout (iteration w Sample.loaded)
  = [InfoFound 2; Error (OSError "permission denied"); Sleep 2]
  /\ LAST_PREDICT_TIME (iteration w Sample.loaded) = 0%float.
Proof.
  intros w.
  destruct (log_failure_ends_the_tick w Sample.loaded
              (set_log_dir true (emit (InfoFound 2) Sample.loaded))
              [Sample.weak; Sample.strong] (OSError "permission denied"))
    as (_ & Hlast & Hout & _).
  - reflexivity.
  - reflexivity.
  - split; [exact Hout | exact Hlast].
Defined.

(** C9. On a predict tick where the model answers for every neighbor, the
    output reports an intended action for exactly the neighbors whose score
    is at least the threshold, in order, and for no other; 0.85 is such a
    score. *)
Theorem actions_exactly_at_threshold (w : World) (ns : list Neighbor)
        (st : State) (model : Model) (probs : list float) :
  MODEL st = Some model ->
  due w st ->
  Forall2 (fun n p => model (features_of w n) = inr p) ns probs ->
  exists st' new,
    maybe_predict_and_act w ns st = (st', inr tt)
    /\ stdout st' = (stdout st ++ new)%list
    /\ omap acted new
       = (fun '(n, p) => (neighbor n, p)) <$>
           List.filter (fun '(n, p) => (PREDICTION_THRESHOLD <=? p)%float)
                       (zip ns probs)
    /\ (forall (i : nat) n p,
           ns !! i = Some n -> probs !! i = Some p ->
           (In (Action (neighbor n) p) new
            <-> (PREDICTION_THRESHOLD <=? p)%float = true))
    /\ (PREDICTION_THRESHOLD <=? 0.85)%float = true.
Proof.
  intros Hm Hdue Hp.
  exists (emit_all (score_events (zip ns probs))
            (set_LAST_PREDICT_TIME (time_now w) st)),
         (score_events (zip ns probs)).
  split; [now rewrite (due_scores _ _ _ _ Hm Hdue), (score_pass _ _ _ _ _ Hp)|].
  split; [reflexivity|].
  split; [apply acted_score_events|].
  split; [|reflexivity].
  intros i n p Hn Hpi. rewrite in_score_events. split.
  - intros (n0 & _ & _ & Hthr). exact Hthr.
  - intros Hthr. exists n. split; [|now split].
    apply list_elem_of_In, list_elem_of_lookup. exists i.
    rewrite lookup_zip_with, Hn. cbn. now rewrite Hpi.
Qed.

Lemma actions_exactly_at_threshold_witness :
  let w := Sample.world (Readable Sample.table) Sample.day1 100 None in
  exists st' new,
    maybe_predict_and_act w [Sample.weak; Sample.strong] Sample.loaded
    = (st', inr tt)
    /\ stdout st' = (stdout Sample.loaded ++ new)%list
    /\ omap acted new = [("aa:bb:cc:dd:ee:ff", 0.85%float)].
Proof.
  intros w.
  destruct (actions_exactly_at_threshold w [Sample.weak; Sample.strong]
              Sample.loaded Sample.model [0.85%float; 0.3%float])
    as (st' & new & Hrun & Hout & Hact & _).
  - reflexivity.
  - split; [now exists Sample.model | reflexivity].
  - repeat constructor.
  - exists st', new. split; [exact Hrun|]. split; [exact Hout|].
    rewrite Hact. reflexivity.
Defined.

(** C10. An append of no records that meets no fault creates the log
    directory and, when the file of the day does not exist, leaves it with the
    header row and nothing else. *)
Theorem empty_append_leaves_header_only (w : World) (st : State) :
  log_fault w = None ->
  log_files st !! dt_date (utcnow_path w) = None ->
  exists st',
    log_metrics w [] st = (st', inr tt)
    /\ log_dir st' = true
    /\ log_files st' !! dt_date (utcnow_path w) = Some [header_row].
Proof.
  intros Hfault Hd. eexists.
  split; [apply (log_metrics_ok _ _ _ Hfault)|].
  cbn. rewrite Hd, lookup_insert_eq. now split.
Qed.

Lemma empty_append_leaves_header_only_witness :
  let w := Sample.world Missing Sample.day1 100 None in
  exists st',
    log_metrics w [] (initial false ∅) = (st', inr tt)
    /\ log_dir st' = true
    /\ log_files st' !! Sample.day1 = Some [header_row].
Proof.
  intros w.
  apply (empty_append_leaves_header_only w (initial false ∅));
    reflexivity.
Defined.

(** * Further properties *)

(** ** Feature extraction *)

Lemma clamp_tq_range (tq : Z) : 0 <= clamp_tq tq <= 255.
Proof. unfold clamp_tq. lia. Qed.

Lemma signal_of_clamp (tq : Z) :
  estimate_signal_strength tq = estimate_signal_strength (clamp_tq tq).
Proof.
  unfold estimate_signal_strength, clamp_tq.
  now replace (Z.max 0 (Z.min 255 (Z.max 0 (Z.min 255 tq))))
    with (Z.max 0 (Z.min 255 tq)) by lia.
Qed.

Lemma loss_of_clamp (tq : Z) :
  estimate_packet_loss tq = estimate_packet_loss (clamp_tq tq).
Proof.
  unfold estimate_packet_loss, clamp_tq.
  now replace (Z.max 0 (Z.min 255 (Z.max 0 (Z.min 255 tq))))
    with (Z.max 0 (Z.min 255 tq)) by lia.
Qed.

(** A check that holds of all pairs holds of each pair in range. *)
Lemma on_all_pairs_at (check : Z -> Z -> bool) (a b : Z) :
  on_all_pairs check = true ->
  0 <= a <= 255 -> 0 <= b <= 255 -> check a b = true.
Proof.
  unfold on_all_pairs. intros Hall Ha Hb.
  rewrite List.forallb_forall in Hall.
  assert (Hia : In (Z.to_nat a) (seq 0 256)) by (apply in_seq; lia).
  assert (Hib : In (Z.to_nat b) (seq 0 256)) by (apply in_seq; lia).
  pose proof (Hall _ Hia) as Hrow. rewrite List.forallb_forall in Hrow.
  pose proof (Hrow _ Hib) as H.
  now rewrite !Z2Nat.id in H by lia.
Qed.

Lemma on_all_values_at (check : Z -> bool) (a : Z) :
  on_all_values check = true -> 0 <= a <= 255 -> check a = true.
Proof.
  unfold on_all_values. intros Hall Ha.
  rewrite List.forallb_forall in Hall.
  assert (Hia : In (Z.to_nat a) (seq 0 256)) by (apply in_seq; lia).
  pose proof (Hall _ Hia) as H.
  now rewrite Z2Nat.id in H by lia.
Qed.

Lemma features_in_range_check :
  on_all_values
    (fun a =>
       ((0 <=? estimate_signal_strength a)
        && (estimate_signal_strength a <=? 1)
        && (0 <=? estimate_packet_loss a)
        && (estimate_packet_loss a <=? 0.5))%float) = true.
Proof. vm_compute. reflexivity. Qed.

Lemma features_monotone_check :
  on_all_pairs
    (fun a b =>
       implb (a <? b)%Z
             ((estimate_signal_strength a <? estimate_signal_strength b)
              && (estimate_packet_loss b <? estimate_packet_loss a))%float)
  = true.
Proof. vm_compute. reflexivity. Qed.

(** X1. The signal strength of any integer link quality lies in [0, 1]; it
    is 0 for every link quality at or below 0 and 1 for every one at or above
    255. *)
Theorem signal_strength_clamped (tq : Z) :
  (0 <=? estimate_signal_strength tq)%float = true
  /\ (estimate_signal_strength tq <=? 1)%float = true
  /\ (tq <= 0 -> estimate_signal_strength tq = 0%float)
  /\ (255 <= tq -> estimate_signal_strength tq = 1%float).
Proof.
  pose proof (on_all_values_at _ (clamp_tq tq) features_in_range_check
                (clamp_tq_range tq)) as H.
  cbv beta in H. rewrite <- signal_of_clamp in H.
  apply andb_prop in H as [H _]. apply andb_prop in H as [H _].
  apply andb_prop in H as [H0 H1].
  split; [exact H0|]. split; [exact H1|]. split; intros Htq.
  - unfold estimate_signal_strength.
    replace (Z.max 0 (Z.min 255 tq)) with 0 by lia. reflexivity.
  - unfold estimate_signal_strength.
    replace (Z.max 0 (Z.min 255 tq)) with 255 by lia.
    vm_compute. reflexivity.
Qed.

(** X2. The packet loss of any integer link quality lies in [0, 0.5]; it is
    0.5 for every link quality at or below 0 and 0 for every one at or above
    255. *)
Theorem packet_loss_clamped (tq : Z) :
  (0 <=? estimate_packet_loss tq)%float = true
  /\ (estimate_packet_loss tq <=? 0.5)%float = true
  /\ (tq <= 0 -> estimate_packet_loss tq = 0.5%float)
  /\ (255 <= tq -> estimate_packet_loss tq = 0%float).
Proof.
  pose proof (on_all_values_at _ (clamp_tq tq) features_in_range_check
                (clamp_tq_range tq)) as H.
  cbv beta in H. rewrite <- loss_of_clamp in H.
  apply andb_prop in H as [H H1]. apply andb_prop in H as [_ H0].
  split; [exact H0|]. split; [exact H1|]. split; intros Htq.
  - unfold estimate_packet_loss.
    replace (Z.max 0 (Z.min 255 tq)) with 0 by lia.
    vm_compute. reflexivity.
  - unfold estimate_packet_loss.
    replace (Z.max 0 (Z.min 255 tq)) with 255 by lia.
    vm_compute. reflexivity.
Qed.

(** X3. Between link qualities whose clamped values differ, the better link
    has the strictly larger signal strength and the strictly smaller packet
    loss: inside [0, 255] distinct link qualities never share a feature
    value. *)
Theorem features_strictly_monotone (a b : Z) :
  clamp_tq a < clamp_tq b ->
  (estimate_signal_strength a <? estimate_signal_strength b)%float = true
  /\ (estimate_packet_loss b <? estimate_packet_loss a)%float = true.
Proof.
  intros Hlt.
  pose proof (on_all_pairs_at _ (clamp_tq a) (clamp_tq b)
                features_monotone_check
                (clamp_tq_range a) (clamp_tq_range b)) as H.
  cbv beta in H.
  rewrite <- !signal_of_clamp, <- !loss_of_clamp in H.
  rewrite (proj2 (Z.ltb_lt _ _) Hlt) in H. cbn [implb] in H.
  now apply andb_prop in H.
Qed.

Lemma features_strictly_monotone_witness :
  (estimate_signal_strength 199 <? estimate_signal_strength 200)%float = true
  /\ (estimate_packet_loss 200 <? estimate_packet_loss 199)%float = true.
Proof.
  apply (features_strictly_monotone 199 200). vm_compute. reflexivity.
Defined.

(** ** The telemetry reader *)

Lemma parse_lines_app (l1 l2 : list string) :
  parse_lines (l1 ++ l2) = (parse_lines l1 ++ parse_lines l2)%list.
Proof. rewrite !parse_lines_omap. apply omap_app. Qed.

Lemma passed_over_skipped (line : string) :
  passed_over line = true -> parse_line line = None.
Proof. unfold passed_over, parse_line. cbv zeta. now intros ->. Qed.

Lemma parse_lines_filter (lines : list string) :
  parse_lines (List.filter (fun l => negb (passed_over l)) lines)
  = parse_lines lines.
Proof.
  rewrite !parse_lines_omap.
  induction lines as [|l lines IH]; [reflexivity|].
  cbn [List.filter]. destruct (passed_over l) eqn:Hp; cbn [negb].
  - cbn. now rewrite (passed_over_skipped _ Hp).
  - cbn. now rewrite IH.
Qed.

Lemma parse_lines_length (lines : list string) :
  (length (parse_lines lines) <= length lines)%nat.
Proof.
  rewrite parse_lines_omap.
  induction lines as [|l lines IH]; cbn; [lia|].
  destruct (parse_line l); cbn; lia.
Qed.

Lemma split_nonempty (s tok : string) :
  In tok (PyStr.split s) -> tok <> "".
Proof.
  unfold PyStr.split. intros [_ Hne]%List.filter_In ->. discriminate Hne.
Qed.

(** [int] with its sign test written as comparisons. *)
Lemma int_by_cases (s : string) :
  PyNum.int s
  = let t := PyStr.strip PyStr.is_c_space s in
    match
      match t with
      | EmptyString => PyNum.digits_value 0 false EmptyString
      | String c d =>
          if Ascii.eqb c "+" then PyNum.digits_value 0 false d
          else if Ascii.eqb c "-" then Z.opp <$> PyNum.digits_value 0 false d
               else PyNum.digits_value 0 false (String c d)
      end
    with
    | Some z =>
        if (PyNum.digit_count t <=? PyNum.int_max_str_digits)%nat then inr z
        else inl ValueError
    | None => inl ValueError
    end.
Proof.
  unfold PyNum.int. destruct (PyStr.strip PyStr.is_c_space s) as [|c d];
    [reflexivity|].
  destruct c as [[] [] [] [] [] [] [] []]; reflexivity.
Qed.

Lemma space_not_foreign (c : ascii) :
  PyStr.is_c_space c = true -> foreign c = false.
Proof.
  destruct c as [[] [] [] [] [] [] [] []]; intros H;
    try discriminate H; reflexivity.
Qed.

Lemma digits_value_foreign (acc : Z) (seen : bool) (s : string) :
  has_char foreign s = true -> PyNum.digits_value acc seen s = None.
Proof.
  revert acc seen. induction s as [|c s IH]; intros acc seen H;
    [discriminate H|].
  cbn [has_char] in H. cbn [PyNum.digits_value].
  destruct (PyStr.is_digit c) eqn:Hd.
  - assert (Hc : foreign c = false) by (unfold foreign; now rewrite Hd).
    rewrite Hc in H. now apply IH.
  - destruct (PyStr.is_char "_" c) eqn:Hu; [|reflexivity].
    assert (Hc : foreign c = false)
      by (unfold foreign; now rewrite Hd, Hu).
    rewrite Hc in H. destruct seen; [now apply IH | reflexivity].
Qed.

(** [int] refuses every text that holds a foreign character. *)
Lemma int_foreign (s : string) :
  has_char foreign s = true -> PyNum.int s = inl ValueError.
Proof.
  intros H. rewrite int_by_cases. cbv zeta.
  rewrite <- (strip_has_char PyStr.is_c_space foreign s space_not_foreign) in H.
  destruct (PyStr.strip PyStr.is_c_space s) as [|c d]; [discriminate H|].
  destruct (Ascii.eqb c "+") eqn:Hplus.
  - apply Ascii.eqb_eq in Hplus. subst c. cbn in H.
    now rewrite (digits_value_foreign _ _ _ H).
  - destruct (Ascii.eqb c "-") eqn:Hminus.
    + apply Ascii.eqb_eq in Hminus. subst c. cbn in H.
      now rewrite (digits_value_foreign _ _ _ H).
    + now rewrite (digits_value_foreign _ _ _ H).
Qed.

(** The [try] body ends in an exception when a number fails to read. *)
Lemma parse_fields_bad_tq (parts : list string) (tok field : string) :
  List.find (PyStr.startswith "TQ:") parts = Some tok ->
  PyStr.split_on ":" tok !! 1%nat = Some field ->
  has_char foreign field = true ->
  exists e, parse_fields parts = inl e.
Proof.
  intros Htok Hfield Hbad.
  unfold parse_fields, next_such, item, mbind, exn_bind.
  destruct (parts !! 0%nat); [|eauto].
  rewrite Htok, Hfield, (int_foreign _ Hbad). eauto.
Qed.

Lemma parse_fields_bad_last_seen (parts : list string) (tok : string) :
  List.find (PyStr.startswith "(") parts = Some tok ->
  has_char foreign (PyStr.strip (PyStr.is_char "(") tok) = true ->
  exists e, parse_fields parts = inl e.
Proof.
  intros Htok Hbad.
  unfold parse_fields, next_such, item, mbind, exn_bind.
  rewrite first_of_filter, Htok, (int_foreign _ Hbad).
  destruct (parts !! 0%nat); [|eauto].
  destruct (List.find (PyStr.startswith "TQ:") parts); [|eauto].
  destruct (PyStr.split_on ":" _ !! 1%nat); [|eauto].
  destruct (PyNum.int _); eauto.
Qed.

Lemma parse_line_of_failed_fields (line : string) :
  (exists e, parse_fields (PyStr.split (PyStr.strip PyStr.is_space line))
             = inl e) ->
  parse_line line = None.
Proof.
  intros [e He]. unfold parse_line. cbv zeta. rewrite He.
  now destruct (negb _ || _).
Qed.

(** X4. Reading is line by line: the records of a file made of two parts
    are the records of the first part followed by those of the second. *)
Theorem read_of_concatenation (l1 l2 : list string) (r1 r2 : list Neighbor) :
  parse_batman_originators (Readable l1) = inr r1 ->
  parse_batman_originators (Readable l2) = inr r2 ->
  parse_batman_originators (Readable (l1 ++ l2)) = inr (r1 ++ r2)%list.
Proof.
  cbn. intros [= <-] [= <-]. now rewrite parse_lines_app.
Qed.

Lemma read_of_concatenation_witness :
  parse_batman_originators
    (Readable (["Originator  last-seen"; "aa:bb:cc:dd:ee:ff TQ:60 (340"]
               ++ [""; "11:22:33:44:55:66 TQ:250 (120"]))
  = inr ([Sample.weak] ++ [Sample.strong])%list.
Proof.
  apply read_of_concatenation; vm_compute; reflexivity.
Defined.

(** X5. Every record a read returns has a hop count of 1 and a non-empty
    identifier, whatever the file holds. *)
Theorem records_are_single_hop (src : Source) (rs : list Neighbor) :
  parse_batman_originators src = inr rs ->
  Forall (fun n => hop_count n = 1 /\ neighbor n <> "") rs.
Proof.
  destruct src as [| |lines]; cbn; try discriminate.
  intros [= <-]. rewrite parse_lines_omap.
  apply List.Forall_forall. intros n Hn.
  apply list_elem_of_In, list_elem_of_omap in Hn as (line & _ & Hline).
  apply parse_line_well_formed in Hline.
  destruct Hline as [mac rest ? ? ? ? ? text _ _ Hparts _ _ _ _ _].
  split; [reflexivity|]. cbn.
  apply (split_nonempty text). rewrite Hparts. now left.
Qed.

Lemma records_are_single_hop_witness :
  Forall (fun n => hop_count n = 1 /\ neighbor n <> "")
         [Sample.weak; Sample.strong].
Proof.
  apply (records_are_single_hop (Readable Sample.table)).
  vm_compute. reflexivity.
Defined.

(** X6. Blank lines and header lines leave no trace wherever they stand:
    a file read with them gives what it gives without them; and a read never
    returns more records than the file has lines. *)
Theorem passed_over_lines_leave_no_trace (lines : list string) :
  parse_batman_originators
    (Readable (List.filter (fun l => negb (passed_over l)) lines))
  = parse_batman_originators (Readable lines)
  /\ (forall rs, parse_batman_originators (Readable lines) = inr rs ->
                 (length rs <= length lines)%nat).
Proof.
  cbn. split.
  - now rewrite parse_lines_filter.
  - intros rs [= <-]. apply parse_lines_length.
Qed.

(** X7. A line whose link-quality field or whose last-seen token holds a
    character that no integer has is dropped whole: its other fields do not
    save it. *)
Theorem unreadable_number_drops_line (line tok : string) :
  let parts := PyStr.split (PyStr.strip PyStr.is_space line) in
  (List.find (PyStr.startswith "(") parts = Some tok
   /\ has_char foreign (PyStr.strip (PyStr.is_char "(") tok) = true)
  \/ (List.find (PyStr.startswith "TQ:") parts = Some tok
      /\ exists field, PyStr.split_on ":" tok !! 1%nat = Some field
                       /\ has_char foreign field = true) ->
  parse_line line = None.
Proof.
  intros parts [[Htok Hbad] | [Htok (field & Hfield & Hbad)]];
    apply parse_line_of_failed_fields.
  - exact (parse_fields_bad_last_seen _ _ Htok Hbad).
  - exact (parse_fields_bad_tq _ _ _ Htok Hfield Hbad).
Qed.

Lemma unreadable_number_drops_line_witness :
  parse_line "aa:bb:cc:dd:ee:ff   0.340s   TQ:200 (600)" = None.
Proof.
  apply (unreadable_number_drops_line _ "(600)").
  left. split; vm_compute; reflexivity.
Defined.

(** ** The metric log *)

Lemma extends_refl (files : gmap date (list row)) : extends files files.
Proof. intros d rows H. exists []. now rewrite app_nil_r. Qed.

Lemma extends_trans (f1 f2 f3 : gmap date (list row)) :
  extends f1 f2 -> extends f2 f3 -> extends f1 f3.
Proof.
  intros H12 H23 d rows H.
  destruct (H12 _ _ H) as (more & H2).
  destruct (H23 _ _ H2) as (more' & H3).
  exists (more ++ more')%list. now rewrite app_assoc.
Qed.

Lemma log_metrics_extends (w : World) (ns : list Neighbor) (st : State) :
  extends (log_files st) (log_files (fst (log_metrics w ns st))).
Proof.
  destruct (log_metrics_files w ns st) as [-> | (j & ->)];
    [apply extends_refl|].
  intros d rows Hd.
  destruct (decide (dt_date (utcnow_path w) = d)) as [<-|Hne].
  - rewrite Hd, lookup_insert_eq. eauto.
  - rewrite lookup_insert_ne by exact Hne.
    exists []. now rewrite app_nil_r.
Qed.

(** The files after a tick, failed or not, are those its append leaves, or
    the files before when the read fails. *)
Lemma tick_files (w : World) (st : State) :
  log_files (fst (tick w st)) = log_files st
  \/ exists ns,
       parse_batman_originators (originators w) = inr ns
       /\ log_files (fst (tick w st))
          = log_files
              (fst (log_metrics w ns (emit (InfoFound (length ns)) st))).
Proof.
  rewrite tick_eq.
  destruct (parse_batman_originators (originators w)) as [e|ns];
    [now left|].
  right. exists ns. split; [reflexivity|].
  destruct (log_metrics w ns (emit (InfoFound (length ns)) st))
    as [st1 [e|[]]]; [reflexivity|].
  destruct (maybe_predict_and_act_frame w ns st1) as (new & -> & _).
  now destruct (dueb w st1).
Qed.

Lemma iteration_files (w : World) (st : State) :
  log_files (iteration w st) = log_files (fst (tick w st)).
Proof. unfold iteration. now destruct (tick w st) as [st' [e|u]]. Qed.

Lemma main_loop_extends (ws : list World) (st : State) :
  extends (log_files st) (log_files (main_loop ws st)).
Proof.
  revert st. induction ws as [|w ws IH]; intros st; [apply extends_refl|].
  cbn [main_loop]. eapply extends_trans; [|apply IH].
  rewrite iteration_files.
  destruct (tick_files w st) as [-> | (ns & _ & ->)];
    [apply extends_refl|].
  apply (log_metrics_extends w ns (emit (InfoFound (length ns)) st)).
Qed.









(** X8. The log is append-only: an append, failed or not, and any run of the
    main loop lose no file and keep the rows every file had as a prefix of
    what it has afterwards. *)
Theorem log_is_append_only :
  (forall w ns st,
      extends (log_files st) (log_files (fst (log_metrics w ns st))))
  /\ (forall ws st, extends (log_files st) (log_files (main_loop ws st))).
Proof. split; [exact log_metrics_extends | exact main_loop_extends]. Qed.



(** X10. Two appends on one date accumulate: the file of the day holds what
    it held (or the header, when it was new), then the rows of the first
    append, then the rows of the second; the second append writes no
    header. *)
Theorem same_day_appends_accumulate (w1 w2 : World) (ns1 ns2 : list Neighbor)
        (st : State) :
  log_fault w1 = None -> log_fault w2 = None ->
  dt_date (utcnow_path w1) = dt_date (utcnow_path w2) ->
  let d := dt_date (utcnow_path w1) in
  exists st1 st2,
    log_metrics w1 ns1 st = (st1, inr tt)
    /\ log_metrics w2 ns2 st1 = (st2, inr tt)
    /\ log_files st2 !! d
       = Some (match log_files st !! d with
               | Some rows => rows
               | None => [header_row]
               end
               ++ (data_row w1 <$> ns1) ++ (data_row w2 <$> ns2))%list.
Proof.
  intros Hf1 Hf2 Hday d. do 2 eexists.
  split; [apply (log_metrics_ok _ _ _ Hf1)|].
  split; [apply (log_metrics_ok _ _ _ Hf2)|].
  cbn [log_files set_log_files set_log_dir]. rewrite <- Hday. fold d.
  rewrite !lookup_insert_eq.
  destruct (log_files st !! d) as [rows|]; cbn.
  - now rewrite <- app_assoc.
  - reflexivity.
Qed.

Lemma same_day_appends_accumulate_witness :
  let w1 := Sample.world Missing Sample.day1 100 None in
  let w2 := Sample.world Missing Sample.day1 102 None in
  exists st1 st2,
    log_metrics w1 [Sample.weak] (initial false ∅) = (st1, inr tt)
    /\ log_metrics w2 [Sample.strong] st1 = (st2, inr tt)
    /\ log_files st2 !! Sample.day1
       = Some [header_row; data_row w1 Sample.weak;
               data_row w2 Sample.strong].
Proof.
  intros w1 w2.
  destruct (same_day_appends_accumulate w1 w2 [Sample.weak] [Sample.strong]
              (initial false ∅) eq_refl eq_refl eq_refl)
    as (st1 & st2 & H1 & H2 & H3).
  exists st1, st2. split; [exact H1|]. split; [exact H2|].
  etransitivity; [exact H3 | reflexivity].
Defined.



(** ** Prediction and the main loop *)

Lemma for_each_app {A} (l1 l2 : list A) (body : A -> M unit) (st : State) :
  for_each (l1 ++ l2)%list body st
  = match for_each l1 body st with
    | (st', inr _) => for_each l2 body st'
    | (st', inl e) => (st', inl e)
    end.
Proof.
  revert st. induction l1 as [|x l1 IH]; intros st; [reflexivity|].
  cbn [app for_each]. unfold mbind, M_bind.
  destruct (body x st) as [st' [e|[]]]; [reflexivity | apply IH].
Qed.

(** The scoring loop, whatever the model does: it writes the lines of the
    neighbors it scored before the model raised, if it did. *)
Lemma score_loop_events (model : Model) (w : World) (ns : list Neighbor)
      (st : State) :
  exists scored,
    fst (for_each ns (score_one model w) st)
    = emit_all (score_events scored) st.
Proof.
  revert st. induction ns as [|n ns IH]; intros st.
  - exists []. cbn. now rewrite emit_all_nil.
  - cbn [for_each]. unfold mbind, M_bind, score_one at 1, lift, print, modify.
    unfold mbind, M_bind.
    destruct (model (features_of w n)) as [e|p] eqn:Hp.
    + exists []. cbn. now rewrite emit_all_nil.
    + destruct (PREDICTION_THRESHOLD <=? p)%float eqn:Hthr; cbn [mret M_ret].
      * destruct (IH (emit (Action (neighbor n) p)
                        (emit (Predict (neighbor n) (tq n) (hop_count n) p) st)))
          as (scored & Hs).
        exists ((n, p) :: scored).
        rewrite Hs, !emit_emit_all, !emit_all_app.
        cbn [score_events flat_map]. now rewrite Hthr.
      * destruct (IH (emit (Predict (neighbor n) (tq n) (hop_count n) p) st))
          as (scored & Hs).
        exists ((n, p) :: scored).
        rewrite Hs, !emit_emit_all, !emit_all_app.
        cbn [score_events flat_map]. now rewrite Hthr.
Qed.

Lemma maybe_predict_and_act_events (w : World) (ns : list Neighbor)
      (st : State) :
  exists scored,
    fst (maybe_predict_and_act w ns st)
    = emit_all (score_events scored)
        (if dueb w st then set_LAST_PREDICT_TIME (time_now w) st else st)
    /\ (dueb w st = false -> scored = []).
Proof.
  destruct (dueb w st) eqn:Hdue.
  - apply dueb_due in Hdue. destruct (Hdue) as [[model Hm] _].
    rewrite (due_scores _ _ _ _ Hm Hdue).
    destruct (score_loop_events model w ns
                (set_LAST_PREDICT_TIME (time_now w) st)) as (scored & Hs).
    exists scored. split; [exact Hs | discriminate].
  - rewrite not_due_skips.
    + exists []. cbn. now rewrite emit_all_nil.
    + intros Hd. apply dueb_due in Hd. congruence.
Qed.

(** The output of a tick: nothing when the read fails, else the count of
    neighbors, then the lines of a scoring pass, none without a model. *)
Lemma tick_events (w : World) (st : State) :
  exists new,
    stdout (fst (tick w st)) = (stdout st ++ new)%list
    /\ (new = []
        \/ exists k scored,
             new = InfoFound k :: score_events scored
             /\ (MODEL st = None -> scored = [])).
Proof.
  rewrite tick_eq.
  destruct (parse_batman_originators (originators w)) as [e|ns].
  - exists []. cbn. rewrite app_nil_r. auto.
  - pose proof (log_metrics_frame w ns (emit (InfoFound (length ns)) st))
      as (Hm & _ & Hout).
    destruct (log_metrics w ns (emit (InfoFound (length ns)) st))
      as [st1 [e|[]]]; cbn [fst] in Hm, Hout.
    + exists [InfoFound (length ns)]. cbn [fst]. rewrite Hout.
      split; [reflexivity|]. right. exists (length ns), []. auto.
    + destruct (maybe_predict_and_act_events w ns st1)
        as (scored & -> & Hquiet).
      exists (InfoFound (length ns) :: score_events scored). split.
      * assert (stdout (if dueb w st1
                        then set_LAST_PREDICT_TIME (time_now w) st1 else st1)
                = stdout st1) as Hsame by now destruct (dueb w st1).
        cbn [emit_all stdout]. rewrite Hsame, Hout. cbn.
        now rewrite <- app_assoc.
      * right. exists (length ns), scored. split; [reflexivity|].
        intros Hnone. apply Hquiet. unfold dueb.
        cbn in Hm. now rewrite Hm, Hnone.
Qed.

(** The output of an iteration: that of its tick, the error if it raised,
    the sleep. *)
Lemma iteration_events (w : World) (st : State) :
  exists new tail,
    stdout (iteration w st) = (stdout st ++ new ++ tail)%list
    /\ (tail = [Sleep POLL_INTERVAL_SEC]
        \/ exists e, tail = [Error e; Sleep POLL_INTERVAL_SEC])
    /\ (new = []
        \/ exists k scored,
             new = InfoFound k :: score_events scored
             /\ (MODEL st = None -> scored = [])).
Proof.
  destruct (tick_events w st) as (new & Hout & Hnew).
  unfold iteration.
  destruct (tick w st) as [st' [e|u]]; cbn [fst] in Hout.
  - exists new, [Error e; Sleep POLL_INTERVAL_SEC].
    cbn [emit stdout]. rewrite Hout, <- !app_assoc.
    split; [reflexivity|]. split; [eauto | exact Hnew].
  - exists new, [Sleep POLL_INTERVAL_SEC].
    cbn [emit stdout]. rewrite Hout, <- !app_assoc.
    split; [reflexivity|]. split; [auto | exact Hnew].
Qed.

Lemma tick_model (w : World) (st : State) :
  MODEL (fst (tick w st)) = MODEL st.
Proof.
  rewrite tick_eq.
  destruct (parse_batman_originators (originators w)) as [e|ns];
    [reflexivity|].
  pose proof (log_metrics_frame w ns (emit (InfoFound (length ns)) st))
    as (Hm & _ & _).
  destruct (log_metrics w ns (emit (InfoFound (length ns)) st))
    as [st1 [e|[]]]; cbn [fst] in Hm; [exact Hm|].
  now rewrite model_after_attempt.
Qed.

Lemma iteration_model (w : World) (st : State) :
  MODEL (iteration w st) = MODEL st.
Proof.
  unfold iteration. pose proof (tick_model w st) as H.
  now destruct (tick w st) as [st' [e|u]].
Qed.

Lemma main_loop_model (ws : list World) (st : State) :
  MODEL (main_loop ws st) = MODEL st.
Proof.
  revert st. induction ws as [|w ws IH]; intros st; [reflexivity|].
  cbn [main_loop]. now rewrite IH, iteration_model.
Qed.

Lemma predict_in_score_events (n : Neighbor) (p : float)
      (scored : list (Neighbor * float)) :
  In (n, p) scored ->
  In (Predict (neighbor n) (tq n) (hop_count n) p) (score_events scored).
Proof.
  induction scored as [|[n' p'] scored IH]; [intros []|].
  cbn [score_events flat_map].
  change (flat_map _ scored) with (score_events scored).
  intros [[= -> ->] | Hin]; [now left|].
  right. apply in_or_app. right. now apply IH.
Qed.

Lemma actions_backed_score (scored : list (Neighbor * float)) :
  actions_backed (score_events scored).
Proof.
  intros who p Hin. apply in_score_events in Hin as (n & Hn & <- & Hthr).
  split; [exact Hthr|].
  exists (tq n), (hop_count n). now apply predict_in_score_events.
Qed.

Lemma actions_backed_app (evs evs' : list Event) :
  actions_backed evs -> actions_backed evs' ->
  actions_backed (evs ++ evs')%list.
Proof.
  intros H H' who p Hin. apply in_app_or in Hin as [Hin|Hin].
  - destruct (H _ _ Hin) as (Hthr & q & hop & Hp).
    split; [exact Hthr|]. exists q, hop. apply in_or_app. now left.
  - destruct (H' _ _ Hin) as (Hthr & q & hop & Hp).
    split; [exact Hthr|]. exists q, hop. apply in_or_app. now right.
Qed.

Lemma actions_backed_plain (evs : list Event) :
  omap acted evs = [] -> actions_backed evs.
Proof.
  intros Hnone who p Hin. exfalso.
  assert (Hel : (who, p) ∈ omap acted evs).
  { apply list_elem_of_omap. exists (Action who p).
    split; [now apply list_elem_of_In | reflexivity]. }
  rewrite Hnone in Hel. now apply not_elem_of_nil in Hel.
Qed.

Lemma iteration_actions_backed (w : World) (st : State) :
  actions_backed (stdout st) -> actions_backed (stdout (iteration w st)).
Proof.
  intros Hst.
  destruct (iteration_events w st) as (new & tail & -> & Htail & Hnew).
  apply actions_backed_app; [exact Hst|].
  apply actions_backed_app.
  - destruct Hnew as [-> | (k & scored & -> & _)].
    + now apply actions_backed_plain.
    + apply (actions_backed_app [InfoFound k]);
        [now apply actions_backed_plain | apply actions_backed_score].
  - destruct Htail as [-> | [e ->]]; now apply actions_backed_plain.
Qed.




(** X13. The loop never replaces or drops the model: after any run the
    model is the one [load_model] unpickled at start-up. *)
Theorem model_is_kept (model : Model) (ws : list World) (st : State) :
  (exists st',
      main (Some (inr model)) ws st = (st', inr tt)
      /\ MODEL st' = Some model)
  /\ MODEL (main_loop ws st) = MODEL st.
Proof.
  split; [|apply main_loop_model].
  eexists. split; [reflexivity|]. now rewrite main_loop_model.
Qed.

(** X14. Whatever the model answers and wherever it raises, an output whose
    intended actions each have a score at or above the threshold, reported
    in the output, stays so through any run: the loop reports no action
    below the threshold and none without its score. *)
Theorem actions_are_always_backed (ws : list World) (st : State) :
  actions_backed (stdout st) -> actions_backed (stdout (main_loop ws st)).
Proof.
  revert st. induction ws as [|w ws IH]; intros st Hst; [exact Hst|].
  cbn [main_loop]. apply IH. now apply iteration_actions_backed.
Qed.

Lemma actions_are_always_backed_witness :
  actions_backed
    (stdout
       (main_loop
          [Sample.world (Readable Sample.table) Sample.day1 100 None;
           Sample.world (Readable Sample.table) Sample.day1 102 None]
          (set_MODEL (Some Sample.brittle) (initial true ∅)))).
Proof.
  apply actions_are_always_backed. now apply actions_backed_plain.
Defined.

(** X15. After a scoring pass at clock reading t, every attempt whose
    reading fails the test of the interval against t, the difference being
    computed on binary64 numbers, leaves the state as it is; readings before
    t are among them. *)
Theorem no_scoring_inside_the_interval (w1 w2 : World)
        (ns1 ns2 : list Neighbor) (st : State) :
  due w1 st ->
  (time_now w2 - time_now w1 <? PyNum.float_of_int PREDICT_INTERVAL_SEC)%float
  = true ->
  maybe_predict_and_act w2 ns2 (fst (maybe_predict_and_act w1 ns1 st))
  = (fst (maybe_predict_and_act w1 ns1 st), inr tt).
Proof.
  intros Hdue Hnear. apply not_due_skips. intros [_ Hle].
  rewrite last_after_attempt, (proj2 (dueb_due w1 st) Hdue) in Hle.
  unfold too_soon in Hle. congruence.
Qed.

Lemma no_scoring_inside_the_interval_witness :
  let w1 := Sample.world (Readable Sample.table) Sample.day1 100.3 None in
  let w2 := Sample.world (Readable Sample.table) Sample.day1 105.2 None in
  maybe_predict_and_act w2 [Sample.strong]
    (fst (maybe_predict_and_act w1 [Sample.weak] Sample.loaded))
  = (fst (maybe_predict_and_act w1 [Sample.weak] Sample.loaded), inr tt).
Proof.
  intros w1 w2. apply no_scoring_inside_the_interval.
  - split; [now exists Sample.model | reflexivity].
  - reflexivity.
Defined.

(** X16. When the model raises on a neighbor during a scoring pass, the
    pass ends there with that exception: the neighbors before it are
    reported, those after it are not scored, and the time of the last pass is
    already the clock reading, so the pass is not tried again before an
    interval has gone by. *)
Theorem model_exception_cuts_the_pass (w : World) (st : State)
        (model : Model) (ns1 ns2 : list Neighbor) (n : Neighbor)
        (probs : list float) (e : exn) :
  MODEL st = Some model ->
  due w st ->
  Forall2 (fun n p => model (features_of w n) = inr p) ns1 probs ->
  model (features_of w n) = inl e ->
  maybe_predict_and_act w (ns1 ++ n :: ns2)%list st
  = (emit_all (score_events (zip ns1 probs))
       (set_LAST_PREDICT_TIME (time_now w) st), inl e).
Proof.
  intros Hm Hdue Hok Hbad.
  rewrite (due_scores _ _ _ _ Hm Hdue), for_each_app.
  rewrite (score_pass _ _ _ _ _ Hok).
  cbn [for_each]. unfold mbind, M_bind, score_one at 1, lift.
  unfold mbind, M_bind. now rewrite Hbad.
Qed.

Lemma model_exception_cuts_the_pass_witness :
  let w := Sample.world (Readable Sample.table) Sample.day1 100 None in
  let st := set_MODEL (Some Sample.brittle) (initial true ∅) in
  maybe_predict_and_act w ([Sample.weak] ++ Sample.strong :: [Sample.weak])%list
    st
  = (emit_all (score_events (zip [Sample.weak] [0.85%float]))
       (set_LAST_PREDICT_TIME 100 st),
     inl (ModelError "unexpected input")).
Proof.
  intros w st.
  apply (model_exception_cuts_the_pass w st Sample.brittle).
  - reflexivity.
  - split; [now exists Sample.brittle | reflexivity].
  - repeat constructor.
  - reflexivity.
Defined.

Lemma dueb_false_skips (w : World) (ns : list Neighbor) (st : State) :
  dueb w st = false -> fst (maybe_predict_and_act w ns st) = st.
Proof.
  intros H. rewrite not_due_skips; [reflexivity|].
  intros Hd. apply dueb_due in Hd. congruence.
Qed.

(** Whether an attempt is due on a state that holds a model. *)
Lemma dueb_with_model (w : World) (st : State) :
  is_Some (MODEL st) ->
  dueb w st = negb (too_soon (time_now w) (LAST_PREDICT_TIME st)).
Proof. intros [m Hm]. unfold dueb. now rewrite Hm. Qed.

(** X17. With attempts one poll interval apart, their readings being 2, 4
    and 6 seconds after that of a scoring pass as the differences are
    computed, the two attempts after the pass do nothing and the third
    scores again: at the configured intervals scoring passes are three polls
    apart. *)
Theorem third_attempt_scores_again (w0 w1 w2 w3 : World)
        (ns0 ns1 ns2 ns3 : list Neighbor) (st : State) :
  due w0 st ->
  (time_now w1 - time_now w0)%float = PyNum.float_of_int POLL_INTERVAL_SEC ->
  (time_now w2 - time_now w0)%float
  = PyNum.float_of_int (2 * POLL_INTERVAL_SEC) ->
  (time_now w3 - time_now w0)%float
  = PyNum.float_of_int (3 * POLL_INTERVAL_SEC) ->
  scoring_times [(w0, ns0); (w1, ns1); (w2, ns2); (w3, ns3)] st
  = [time_now w0; time_now w3].
Proof.
  intros Hdue H1 H2 H3.
  cbn [scoring_times]. rewrite (proj2 (dueb_due w0 st) Hdue).
  set (st1 := fst (maybe_predict_and_act w0 ns0 st)).
  assert (Hm : is_Some (MODEL st1))
    by (unfold st1; rewrite model_after_attempt; apply Hdue).
  assert (Hl : LAST_PREDICT_TIME st1 = time_now w0)
    by (unfold st1; rewrite last_after_attempt;
        now rewrite (proj2 (dueb_due w0 st) Hdue)).
  assert (Hd1 : dueb w1 st1 = false).
  { rewrite (dueb_with_model _ _ Hm), Hl. unfold too_soon. now rewrite H1. }
  rewrite Hd1, (dueb_false_skips _ _ _ Hd1).
  assert (Hd2 : dueb w2 st1 = false).
  { rewrite (dueb_with_model _ _ Hm), Hl. unfold too_soon. now rewrite H2. }
  rewrite Hd2, (dueb_false_skips _ _ _ Hd2).
  assert (Hd3 : dueb w3 st1 = true).
  { rewrite (dueb_with_model _ _ Hm), Hl. unfold too_soon. now rewrite H3. }
  now rewrite Hd3.
Qed.

Lemma third_attempt_scores_again_witness :
  let at_time t := Sample.world (Readable Sample.table) Sample.day1 t None in
  scoring_times
    [(at_time 100%float, [Sample.weak]); (at_time 102%float, [Sample.weak]);
     (at_time 104%float, [Sample.weak]); (at_time 106%float, [Sample.weak])]
    Sample.loaded
  = [100%float; 106%float].
Proof.
  intros at_time.
  apply (third_attempt_scores_again (at_time 100%float) (at_time 102%float)
           (at_time 104%float) (at_time 106%float)).
  - split; [now exists Sample.model | reflexivity].
  - reflexivity.
  - reflexivity.
  - reflexivity.
Defined.

(** X18. A tick logs before it predicts: when the read succeeds and the
    append meets no fault, the rows of the tick are in the file of the day
    after the iteration whatever the model does, raising included. *)
Theorem read_tick_is_logged_in_full (w : World) (st : State)
        (ns : list Neighbor) :
  parse_batman_originators (originators w) = inr ns ->
  log_fault w = None ->
  let d := dt_date (utcnow_path w) in
  log_files (iteration w st) !! d
  = Some (match log_files st !! d with
          | Some rows => rows
          | None => [header_row]
          end ++ (data_row w <$> ns))%list
  /\ In (InfoFound (length ns)) (stdout (iteration w st)).
Proof.
  intros Hread Hfault d. split.
  - rewrite iteration_files, tick_eq, Hread.
    rewrite (log_metrics_ok _ _ _ Hfault).
    destruct (maybe_predict_and_act_frame w ns
                (set_log_files
                   (<[dt_date (utcnow_path w) :=
                        match log_files (emit (InfoFound (length ns)) st)
                              !! dt_date (utcnow_path w) with
                        | Some rows => (rows ++ (data_row w <$> ns))%list
                        | None => header_row :: (data_row w <$> ns)
                        end]> (log_files (emit (InfoFound (length ns)) st)))
                   (set_log_dir true (emit (InfoFound (length ns)) st))))
      as (new & -> & _).
    fold d.
    assert (Hfiles : forall s t, log_files
              (emit_all new (if dueb w s then set_LAST_PREDICT_TIME t s else s))
              = log_files s) by (intros s t; now destruct (dueb w s)).
    rewrite Hfiles. cbn [log_files set_log_files set_log_dir emit].
    rewrite lookup_insert_eq. now destruct (log_files st !! d).
  - destruct (tick_events w st) as (new & Hout & Hnew).
    assert (Hin : In (InfoFound (length ns)) (stdout (fst (tick w st)))).
    { rewrite tick_eq, Hread in *.
      pose proof (log_metrics_frame w ns (emit (InfoFound (length ns)) st))
        as (_ & _ & Hlog).
      rewrite (log_metrics_ok _ _ _ Hfault) in *. cbn [fst] in Hlog.
      destruct (maybe_predict_and_act_frame w ns
                  (fst (log_metrics w ns (emit (InfoFound (length ns)) st))))
        as (new' & Hst & _).
      rewrite (log_metrics_ok _ _ _ Hfault) in Hst. cbn [fst] in Hst.
      rewrite Hst.
      assert (Hsame : forall s t, stdout
                (emit_all new' (if dueb w s then set_LAST_PREDICT_TIME t s else s))
                = (stdout s ++ new')%list) by (intros s t; now destruct (dueb w s)).
      rewrite Hsame. apply in_or_app. left.
      cbn [stdout set_log_files set_log_dir emit].
      apply in_or_app. right. now left. }
    unfold iteration. destruct (tick w st) as [st' [e|u]]; cbn [fst] in Hin;
      cbn [emit stdout]; repeat (apply in_or_app; left); exact Hin.
Qed.

Lemma read_tick_is_logged_in_full_witness :
  let w := Sample.world (Readable Sample.table) Sample.day1 100 None in
  let st := set_MODEL (Some Sample.brittle) (initial false ∅) in
  log_files (iteration w st) !! Sample.day1
  = Some [header_row; data_row w Sample.weak; data_row w Sample.strong]
  /\ In (InfoFound 2) (stdout (iteration w st)).
Proof.
  intros w st.
  destruct (read_tick_is_logged_in_full w st [Sample.weak; Sample.strong])
    as [Hfile Hout].
  - vm_compute. reflexivity.
  - reflexivity.
  - split; [etransitivity; [exact Hfile | reflexivity] | exact Hout].
Defined.

(** ** The read API *)

Lemma neighbor_json_round_trip (n : Neighbor) :
  neighbor_of_json
    (JDict [("neighbor", JStr (neighbor n));
            ("last_seen_ms", JInt (last_seen_ms n));
            ("tq", JInt (tq n));
            ("hop_count", JInt (hop_count n))])
  = Some n.
Proof. now destruct n. Qed.

Lemma neighbors_json_round_trip (ns : list Neighbor) :
  mapM neighbor_of_json
    ((fun n => JDict [("neighbor", JStr (neighbor n));
                      ("last_seen_ms", JInt (last_seen_ms n));
                      ("tq", JInt (tq n));
                      ("hop_count", JInt (hop_count n))]) <$> ns)
  = Some ns.
Proof.
  induction ns as [|n ns IH]; [reflexivity|].
  cbn [fmap list_fmap mapM]. rewrite neighbor_json_round_trip. cbn.
  cbn in IH. now rewrite IH.
Qed.

(** The loop of [predictions], when the model answers for every neighbor. *)
Lemma collect_predictions (model : Model) (w : World) (ns : list Neighbor)
      (probs : list float) :
  Forall2 (fun n p => model (features_of w n) = inr p) ns probs ->
  collect ns
    (fun n =>
       prob ← model (features_of w n);
       mret (JDict [("neighbor", JStr (neighbor n));
                    ("failure_prob", JFloat prob);
                    ("tq", JInt (tq n));
                    ("hop_count", JInt (hop_count n))]))
  = inr ((fun '(n, p) => JDict [("neighbor", JStr (neighbor n));
                                 ("failure_prob", JFloat p);
                                 ("tq", JInt (tq n));
                                 ("hop_count", JInt (hop_count n))])
           <$> zip ns probs).
Proof.
  induction 1 as [|n p ns probs Hp _ IH]; [reflexivity|].
  cbn [collect]. unfold mbind, exn_bind, mret, exn_ret in *.
  now rewrite Hp, IH.
Qed.

(** The loop of [predictions], when the model raises on a neighbor. *)
Lemma collect_raises (model : Model) (w : World) (ns1 ns2 : list Neighbor)
      (n : Neighbor) (probs : list float) (e : exn) {B} (k : Neighbor -> float -> B) :
  Forall2 (fun n p => model (features_of w n) = inr p) ns1 probs ->
  model (features_of w n) = inl e ->
  collect (ns1 ++ n :: ns2)%list
    (fun n => prob ← model (features_of w n); mret (k n prob))
  = inl e.
Proof.
  intros Hok Hbad. induction Hok as [|n1 p ns1 probs Hp _ IH].
  - cbn [app collect]. unfold mbind, exn_bind. now rewrite Hbad.
  - cbn [app collect]. unfold mbind, exn_bind in *. now rewrite Hp, IH.
Qed.

Lemma predictions_json_round_trip (scored : list (Neighbor * float)) :
  mapM prediction_of_json
    ((fun '(n, p) => JDict [("neighbor", JStr (neighbor n));
                            ("failure_prob", JFloat p);
                            ("tq", JInt (tq n));
                            ("hop_count", JInt (hop_count n))]) <$> scored)
  = Some ((fun '(n, p) => (neighbor n, p, tq n, hop_count n)) <$> scored).
Proof.
  induction scored as [|[n p] scored IH]; [reflexivity|].
  cbn [fmap list_fmap mapM]. cbn in IH. cbn. now rewrite IH.
Qed.

(** [predictions] with a model, unfolded along its steps. *)
Lemma predictions_eq (model : Model) (w : World) :
  predictions (Some model) w
  = match parse_batman_originators (originators w) with
    | inl e =>
        inr (with_status (jsonify (JDict [("error", JStr (exn_str e))])) 500)
    | inr ns =>
        match
          collect ns
            (fun n =>
               prob ← model (features_of w n);
               mret (JDict [("neighbor", JStr (neighbor n));
                            ("failure_prob", JFloat prob);
                            ("tq", JInt (tq n));
                            ("hop_count", JInt (hop_count n))]))
        with
        | inl e => inl e
        | inr preds =>
            inr (jsonify (JDict [("timestamp", JTime (time_now w));
                                 ("predictions", JList preds)]))
        end
    end.
Proof. reflexivity. Qed.

(** X19. A topology request over a readable source answers 200 with the
    clock reading and the records of the read, each field as the reader gave
    it, in the reader's order: reading the body back gives the records. *)
Theorem topology_returns_the_records (w : World) (rs : list Neighbor) :
  parse_batman_originators (originators w) = inr rs ->
  status (topology w) = 200
  /\ neighbors_of (topology w) = Some rs
  /\ timestamp_of (topology w) = Some (time_now w)
  /\ error_of (topology w) = None.
Proof.
  intros Hread. unfold topology. rewrite Hread.
  split; [reflexivity|]. split; [|now split].
  unfold neighbors_of. cbn. apply neighbors_json_round_trip.
Qed.

Lemma topology_returns_the_records_witness :
  let w := Sample.world (Readable Sample.table) Sample.day1 100 None in
  status (topology w) = 200
  /\ neighbors_of (topology w) = Some [Sample.weak; Sample.strong]
  /\ timestamp_of (topology w) = Some 100%float
  /\ error_of (topology w) = None.
Proof.
  intros w. apply (topology_returns_the_records w). vm_compute. reflexivity.
Defined.

(** X20. A topology request never raises: it answers 500 exactly when the
    source is missing or unreadable, and 200 otherwise; the 500 carries the
    message of the exception of the read and no records. *)
Theorem topology_reports_a_failed_read (w : World) :
  (status (topology w) = 500 <-> unavailable (originators w))
  /\ (status (topology w) = 200 \/ status (topology w) = 500)
  /\ (originators w = Missing ->
      error_of (topology w) = Some (BAT_ORIGINATORS_PATH ++ " does not exist")
      /\ neighbors_of (topology w) = None)
  /\ (forall what,
         originators w = Unreadable what ->
         error_of (topology w) = Some what
         /\ neighbors_of (topology w) = None).
Proof.
  unfold topology, unavailable.
  destruct (originators w) as [|what|lines]; cbn.
  - split; [split; eauto|]. split; [now right|]. split; [now split|].
    discriminate.
  - split; [split; eauto|]. split; [now right|]. split; [discriminate|].
    now intros what' [= <-].
  - split; [split; [discriminate | intros [[=] | [? [=]]]]|].
    split; [now left|]. split; discriminate.
Qed.

(** X21. The predictions view of [api.py] never scores: its [MODEL] is the
    value bound at import, so every request is answered 500 with the fixed
    message, before the source is even read. *)
Theorem api_predictions_always_unavailable (w : World) :
  exists r,
    predictions api_MODEL w = inr r
    /\ status r = 500
    /\ error_of r = Some "Model not loaded on this node"
    /\ predictions_of r = None
    /\ predictions api_MODEL w = predictions None w.
Proof. eexists. now repeat split. Qed.

(** X22. With a model that answers for every neighbor, a predictions request
    over a readable source answers 200 with one prediction for each record,
    in order and whatever its score, the threshold playing no part; the
    scores are those a scoring pass of the monitor reports for the same
    records. *)
Theorem predictions_score_every_record (model : Model) (w : World)
        (ns : list Neighbor) (probs : list float) :
  parse_batman_originators (originators w) = inr ns ->
  Forall2 (fun n p => model (features_of w n) = inr p) ns probs ->
  exists r,
    predictions (Some model) w = inr r
    /\ status r = 200
    /\ timestamp_of r = Some (time_now w)
    /\ predictions_of r
       = Some ((fun '(n, p) => (neighbor n, p, tq n, hop_count n))
                 <$> zip ns probs)
    /\ (fun '(id, p, _, _) => (id, p))
         <$> ((fun '(n, p) => (neighbor n, p, tq n, hop_count n))
                <$> zip ns probs)
       = omap predicted (score_events (zip ns probs)).
Proof.
  intros Hread Hok.
  rewrite predictions_eq, Hread, (collect_predictions model w ns probs Hok).
  eexists. split; [reflexivity|].
  split; [reflexivity|]. split; [reflexivity|]. split.
  - unfold predictions_of. cbn. apply predictions_json_round_trip.
  - rewrite predicted_score_events, <- list_fmap_compose.
    apply list_fmap_ext. now intros _ [n p] _.
Qed.

Lemma predictions_score_every_record_witness :
  let w := Sample.world (Readable Sample.table) Sample.day1 100 None in
  exists r,
    predictions (Some Sample.model) w = inr r
    /\ status r = 200
    /\ predictions_of r
       = Some [("aa:bb:cc:dd:ee:ff", 0.85%float, 60, 1);
               ("11:22:33:44:55:66", 0.3%float, 250, 1)].
Proof.
  intros w.
  destruct (predictions_score_every_record Sample.model w
              [Sample.weak; Sample.strong] [0.85%float; 0.3%float])
    as (r & Hrun & Hstatus & _ & Hpreds & _).
  - vm_compute. reflexivity.
  - repeat constructor.
  - exists r. split; [exact Hrun|]. split; [exact Hstatus|]. exact Hpreds.
Defined.

(** X23. With a model loaded, the two views answer a failed read alike:
    the predictions view gives the response of the topology view, status 500
    and the message of the exception. *)
Theorem views_agree_on_a_failed_read (model : Model) (w : World) :
  unavailable (originators w) ->
  predictions (Some model) w = inr (topology w)
  /\ status (topology w) = 500.
Proof.
  unfold predictions, topology.
  intros [-> | [what ->]]; cbn; now split.
Qed.

Lemma views_agree_on_a_failed_read_witness :
  let w := Sample.world Missing Sample.day1 100 None in
  predictions (Some Sample.model) w = inr (topology w)
  /\ status (topology w) = 500.
Proof.
  intros w. apply views_agree_on_a_failed_read. now left.
Defined.

(** X24. The predictions view does not catch the exceptions of the model:
    when the model raises on a record, the view raises that exception and
    returns no response, whatever it scored before. *)
Theorem model_exception_escapes_predictions (model : Model) (w : World)
        (ns1 ns2 : list Neighbor) (n : Neighbor) (probs : list float)
        (e : exn) :
  parse_batman_originators (originators w) = inr (ns1 ++ n :: ns2)%list ->
  Forall2 (fun n p => model (features_of w n) = inr p) ns1 probs ->
  model (features_of w n) = inl e ->
  predictions (Some model) w = inl e.
Proof.
  intros Hread Hok Hbad. rewrite predictions_eq, Hread.
  now rewrite (collect_raises model w ns1 ns2 n probs e _ Hok Hbad).
Qed.

Lemma model_exception_escapes_predictions_witness :
  predictions (Some Sample.brittle)
    (Sample.world (Readable Sample.table) Sample.day1 100 None)
  = inl (ModelError "unexpected input").
Proof.
  apply (model_exception_escapes_predictions Sample.brittle _
           [Sample.weak] [] Sample.strong [0.85%float]).
  - vm_compute. reflexivity.
  - repeat constructor.
  - reflexivity.
Defined.
